(** * imapclient.response_lexer: the IMAP response tokenizer

    A shallow embedding of [response_lexer.pyx].  The file holds two
    revisions of the module: the first one scans with two 256-entry
    tables and a pair of cursors [fr]/[to] into the source text, the
    second one tests set membership and accumulates each token in a
    bytearray.  Both are embedded ([Module V1], [Module V2]) next to the
    classes [LiteralHandlingIter], [Lexer] and [TokenSource] they share. *)

From Stdlib Require Import List ZArith Lia Bool.
From Stdlib Require Strings.String.
From Stdlib Require Import Strings.Byte.
Import ListNotations String.StringSyntax.
Open Scope string_scope.
Open Scope Z_scope.

(** ** Python values *)

(** A [bytes] object.  A [bytes] of length one (an element obtained by
    indexing in Python 2, the [*_CHR] constants) is represented by its
    byte. *)
Definition bytes := list byte.

Definition ord (b : byte) : Z := Z.of_N (Byte.to_N b).

Definition chr (o : Z) : byte :=
  match Byte.of_N (Z.to_N o) with
  | Some b => b
  | None => x00
  end.

Definition len (s : bytes) : Z := Z.of_nat (length s).

(** [s[i]] for an index inside the text. *)
Definition getitem (s : bytes) (i : Z) : byte := nth (Z.to_nat i) s x00.

(** [s[a:b]] for non-negative [a] and [b]. *)
Definition slice (s : bytes) (a b : Z) : bytes :=
  firstn (Z.to_nat b - Z.to_nat a) (skipn (Z.to_nat a) s).

(** Index of the first [c] in [s], where [s] starts at index [i]. *)
Fixpoint find_from (s : bytes) (c : byte) (i : Z) : Z :=
  match s with
  | [] => -1
  | b :: s' => if Byte.eqb b c then i else find_from s' c (i + 1)
  end.

(** [s.find(c, start)] for a one-byte [c] and a non-negative [start]. *)
Definition find (s : bytes) (c : byte) (start : Z) : Z :=
  find_from (skipn (Z.to_nat start) s) c start.

(** [s.endswith(suffix)] *)
Definition endswith (s suffix : bytes) : bool :=
  if list_eq_dec Byte.byte_eq_dec
       (skipn (length s - length suffix) s) suffix
  then (length suffix <=? length s)%nat else false.

(** [range(n)] *)
Definition range (n : nat) : list Z := map Z.of_nat (seq 0 n).

(** [c in s] for a frozenset of integers, and for one of bytes. *)
Definition mem (c : Z) (s : list Z) : bool := existsb (Z.eqb c) s.
Definition memb (c : byte) (s : list byte) : bool := existsb (Byte.eqb c) s.

(** ** Exceptions and generators *)

Inductive exn :=
| ValueError (msg : String.string)
| ProtocolError (message : option bytes)
| AttributeError.

(** How a generator ends: it returns, or an exception leaves it. *)
Inductive ending :=
| Return
| Raise (e : exn).

(** What a generator does when it is run to its end: the tokens it
    yields, in order, and its ending.  A generator suspended at a
    [yield] is represented by what it has yet to do. *)
Definition trace := (list bytes * ending)%type.

Definition yield_then (toks : list bytes) (t : trace) : trace :=
  (toks ++ fst t, snd t).

(** ["No closing '%s'" % c] *)
Definition no_closing (c : byte) : String.string :=
  String.append "No closing '" (String.append (String.string_of_list_byte [c]) "'").

(** ** Module constants

    The module computes its sets and tables once, when it is loaded; so
    do the definitions here. *)

Definition CTRL_CHARS : list Z := Eval vm_compute in range 32.
Definition ALL_CHARS : list Z := Eval vm_compute in range 256.
(** The six bytes of the literal: space, both parentheses, the percent
    sign, the double quote and the opening square bracket. *)
Definition SPECIALS : list Z :=
  Eval vm_compute in map ord [x20; x28; x29; x25; x22; x5b].
Definition NON_SPECIALS : list Z :=
  Eval vm_compute in
  filter (fun c => negb (mem c SPECIALS) && negb (mem c CTRL_CHARS)) ALL_CHARS.
(** Space, tab, carriage return and line feed. *)
Definition WHITESPACE : list Z :=
  Eval vm_compute in map ord [x20; x09; x0d; x0a].

Definition BACKSLASH : Z := ord x5c.
Definition OPEN_SQUARE : Z := ord x5b.
Definition CLOSE_SQUARE : Z := ord x5d.
Definition DOUBLE_QUOTE : Z := ord x22.

Definition BACKSLASH_CHR : byte := x5c.
Definition OPEN_SQUARE_CHR : byte := x5b.
Definition CLOSE_SQUARE_CHR : byte := x5d.
Definition DOUBLE_QUOTE_CHR : byte := x22.

Definition whitespace : list byte := Eval vm_compute in map chr WHITESPACE.
Definition wordchars : list byte := Eval vm_compute in map chr NON_SPECIALS.

Definition _WS : list Z :=
  Eval vm_compute in map (fun i => if mem i WHITESPACE then 1 else 0) (range 256).
Definition _WC : list Z :=
  Eval vm_compute in map (fun i => if mem i NON_SPECIALS then 1 else 0) (range 256).

(** The C arrays [WS] and [WC] of 256 truth values, indexed by the
    ordinal of a byte. *)
Definition WS (o : Z) : bool := negb (nth (Z.to_nat o) _WS 0 =? 0).
Definition WC (o : Z) : bool := negb (nth (Z.to_nat o) _WC 0 =? 0).

(** Modelled from the spec: [assert_imap_protocol] of [imapclient.util],
    which is imported and not part of this module.  The spec has the two
    places that call it fail with a protocol error when the condition is
    false, and go on otherwise. *)
Definition assert_imap_protocol (condition : bool) (message : option bytes)
  : option exn :=
  if condition then None else Some (ProtocolError message).

(** The exhaustion of the fuel of a loop is [None]; every loop below
    moves [ptr] forward, and [read_token_stream_total] shows that the
    fuel the entry points give never runs out. *)

(** ** The C [char] of the first revision

    The first revision declares [o] and [oo] as C [char]s and assigns
    them the ordinal of a byte.  Whether [char] is signed is left to the
    C compiler: where it is, an ordinal from 128 on becomes negative.  A
    negative [o] then indexes the tables [WS] and [WC] before their first
    entry, and [token.append(o)] raises.  A [build] fixes what the source
    leaves open: the signedness of [char], and what the two reads before
    the tables give. *)

Record build := {
  char_signed : bool;
  before_WS : Z -> bool;
  before_WC : Z -> bool
}.

(** The conversion of an ordinal to [char]. *)
Definition to_char (b : build) (z : Z) : Z :=
  if (128 <=? z) && char_signed b then z - 256 else z.

(** [WS[o]] and [WC[o]] for a [char] [o]. *)
Definition WS_at (b : build) (o : Z) : bool :=
  if o <? 0 then before_WS b o else WS o.
Definition WC_at (b : build) (o : Z) : bool :=
  if o <? 0 then before_WC b o else WC o.

(** [token.append(o)] for an integer [o]. *)
Definition ByteRange : exn := ValueError "byte must be in range(0, 256)".

Definition bytearray_append (token : bytes) (o : Z) : bytes + exn :=
  if (0 <=? o) && (o <? 256) then inl (token ++ [chr o])
  else inr ByteRange.

(** A byte whose ordinal a [char] of the build holds as it is, and a
    text of such bytes: any text where [char] is unsigned, a text of
    bytes below 128 where it is signed. *)
Definition fits (b : build) (c : byte) : bool :=
  (ord c <? 128) || negb (char_signed b).

Definition fit (b : build) (s : bytes) : bool := forallb (fits b) s.

(** Two builds, for the examples: [char] unsigned; [char] signed, with
    zeros before the tables. *)
Definition unsigned_build : build :=
  {| char_signed := false; before_WS := fun _ => false; before_WC := fun _ => false |}.
Definition signed_build : build :=
  {| char_signed := true; before_WS := fun _ => false; before_WC := fun _ => false |}.

(** ** First revision: tables and cursors

    The cursors are C [long]s, which no text is long enough to
    overflow. *)

Module V1.

Section Build.

Variable b : build.

(** Lines 89-111: the loop over a quoted string.  It ends at the closing
    quote with the cursor and the token, or raises. *)
Fixpoint quote_loop (fuel : nat) (src_text : bytes) (ptr : Z) (token : bytes)
  : option (Z * bytes + exn) :=
  match fuel with
  | O => None
  | S fuel' =>
    let src_len := len src_text in
    if ptr <? src_len then
      let nextchar := getitem src_text ptr in
      let o := to_char b (ord nextchar) in
      let ptr := ptr + 1 in
      let append_nextchar :=
        match bytearray_append token o with
        | inr e => Some (inr e)
        | inl token =>
          if o =? DOUBLE_QUOTE then Some (inl (ptr, token))
          else quote_loop fuel' src_text ptr token
        end in
      if o =? BACKSLASH then
        if ptr >=? src_len then
          Some (inr (ValueError (no_closing DOUBLE_QUOTE_CHR)))
        else
          let oo := to_char b (ord (getitem src_text ptr)) in
          if (oo =? BACKSLASH) || (oo =? DOUBLE_QUOTE) then
            match bytearray_append token oo with
            | inr e => Some (inr e)
            | inl token => quote_loop fuel' src_text (ptr + 1) token
            end
          else append_nextchar
      else append_nextchar
    else
      Some (inr (ValueError (no_closing DOUBLE_QUOTE_CHR)))
  end.

(** Lines 65-124: the loop over one stretch of text that is not
    whitespace.  It gives the tokens yielded and either the cursor at
    which the outer loop goes on ([break], or the [else] of the loop) or
    the exception raised.  The assignments [fr = to] after a [yield] are
    followed by a [break] or by the end of the loop and are left out. *)
Fixpoint scan (fuel : nat) (src_text : bytes) (ptr fr to : Z)
  : option (list bytes * (Z + exn)) :=
  match fuel with
  | O => None
  | S fuel' =>
    let src_len := len src_text in
    if ptr <? src_len then
      let nextchar := getitem src_text ptr in
      let o := to_char b (ord nextchar) in
      let ptr := ptr + 1 in
      if WC_at b o then scan fuel' src_text ptr fr (to + 1)
      else if o =? OPEN_SQUARE then
        let ind := find src_text CLOSE_SQUARE_CHR ptr in
        if ind =? -1 then
          Some ([], inr (ValueError (no_closing CLOSE_SQUARE_CHR)))
        else scan fuel' src_text (ind + 1) fr (ind + 1)
      else if WS_at b o then
        Some ([slice src_text fr to], inl ptr)
      else if o =? DOUBLE_QUOTE then
        if to >? fr then Some ([], inr (ValueError String.EmptyString))
        else
          match bytearray_append [] o with
          | inr e => Some ([], inr e)
          | inl token =>
            match quote_loop (S (length src_text)) src_text ptr token with
            | None => None
            | Some (inr e) => Some ([], inr e)
            | Some (inl (ptr, token)) => Some ([token], inl ptr)
            end
          end
      else
        Some ((if to >? fr then [slice src_text fr to] else []) ++ [[nextchar]],
              inl ptr)
    else
      Some ((if to >? fr then [slice src_text fr to] else []), inl ptr)
  end.

(** Lines 60-61: this loop indexes [WS] by the ordinal itself. *)
Fixpoint skip_whitespace (fuel : nat) (src_text : bytes) (ptr : Z) : option Z :=
  match fuel with
  | O => None
  | S fuel' =>
    if (ptr <? len src_text) && WS (ord (getitem src_text ptr)) then
      skip_whitespace fuel' src_text (ptr + 1)
    else Some ptr
  end.

(** Lines 58-124: the outer loop. *)
Fixpoint tokens_from (fuel : nat) (src_text : bytes) (ptr : Z) : option trace :=
  match fuel with
  | O => None
  | S fuel' =>
    if ptr <? len src_text then
      match skip_whitespace (S (length src_text)) src_text ptr with
      | None => None
      | Some ptr =>
        match scan (S (length src_text)) src_text ptr ptr ptr with
        | None => None
        | Some (toks, inr e) => Some (toks, Raise e)
        | Some (toks, inl ptr) =>
          match tokens_from fuel' src_text ptr with
          | None => None
          | Some t => Some (yield_then toks t)
          end
        end
      end
    else Some ([], Return)
  end.

Definition read_token_stream (src_text : bytes) : option trace :=
  tokens_from (S (length src_text)) src_text 0.

End Build.

End V1.

(** ** Second revision: set membership and a bytearray *)

Module V2.

(** The truth value of a bytearray: it is not empty. *)
Definition truth (token : bytes) : bool :=
  match token with
  | [] => false
  | _ :: _ => true
  end.

(** Lines 261-281: the loop over a quoted string. *)
Fixpoint quote_loop (fuel : nat) (src_text : bytes) (ptr : Z) (token : bytes)
  : option (Z * bytes + exn) :=
  match fuel with
  | O => None
  | S fuel' =>
    let src_len := len src_text in
    if ptr <? src_len then
      let nextchar := getitem src_text ptr in
      let ptr := ptr + 1 in
      let append_nextchar :=
        let token := token ++ [nextchar] in
        if Byte.eqb nextchar DOUBLE_QUOTE_CHR then Some (inl (ptr, token))
        else quote_loop fuel' src_text ptr token in
      if Byte.eqb nextchar BACKSLASH_CHR then
        if ptr >=? src_len then
          Some (inr (ValueError (no_closing DOUBLE_QUOTE_CHR)))
        else if Byte.eqb (getitem src_text ptr) BACKSLASH_CHR
                || Byte.eqb (getitem src_text ptr) DOUBLE_QUOTE_CHR then
          quote_loop fuel' src_text (ptr + 1) (token ++ [getitem src_text ptr])
        else append_nextchar
      else append_nextchar
    else
      Some (inr (ValueError (no_closing DOUBLE_QUOTE_CHR)))
  end.

(** Lines 240-292: the loop over one stretch of text that is not
    whitespace, with the token it has accumulated so far. *)
Fixpoint scan (fuel : nat) (src_text : bytes) (ptr : Z) (token : bytes)
  : option (list bytes * (Z + exn)) :=
  match fuel with
  | O => None
  | S fuel' =>
    let src_len := len src_text in
    if ptr <? src_len then
      let nextchar := getitem src_text ptr in
      let ptr := ptr + 1 in
      if memb nextchar wordchars then scan fuel' src_text ptr (token ++ [nextchar])
      else if Byte.eqb nextchar OPEN_SQUARE_CHR then
        let token := token ++ [nextchar] in
        let ind := find src_text CLOSE_SQUARE_CHR ptr in
        if ind =? -1 then
          Some ([], inr (ValueError (no_closing CLOSE_SQUARE_CHR)))
        else
          scan fuel' src_text (ind + 1) (token ++ slice src_text ptr (ind + 1))
      else if memb nextchar whitespace then
        Some ([token], inl ptr)
      else if Byte.eqb nextchar DOUBLE_QUOTE_CHR then
        match assert_imap_protocol (negb (truth token)) None with
        | Some e => Some ([], inr e)
        | None =>
          match quote_loop (S (length src_text)) src_text ptr (token ++ [nextchar]) with
          | None => None
          | Some (inr e) => Some ([], inr e)
          | Some (inl (ptr, token)) => Some ([token], inl ptr)
          end
        end
      else
        Some ((if truth token then [token] else []) ++ [[nextchar]], inl ptr)
    else
      Some ((if truth token then [token] else []), inl ptr)
  end.

(** Lines 235-236. *)
Fixpoint skip_whitespace (fuel : nat) (src_text : bytes) (ptr : Z) : option Z :=
  match fuel with
  | O => None
  | S fuel' =>
    if (ptr <? len src_text) && memb (getitem src_text ptr) whitespace then
      skip_whitespace fuel' src_text (ptr + 1)
    else Some ptr
  end.

(** Lines 233-292: the outer loop. *)
Fixpoint tokens_from (fuel : nat) (src_text : bytes) (ptr : Z) : option trace :=
  match fuel with
  | O => None
  | S fuel' =>
    if ptr <? len src_text then
      match skip_whitespace (S (length src_text)) src_text ptr with
      | None => None
      | Some ptr =>
        match scan (S (length src_text)) src_text ptr [] with
        | None => None
        | Some (toks, inr e) => Some (toks, Raise e)
        | Some (toks, inl ptr) =>
          match tokens_from fuel' src_text ptr with
          | None => None
          | Some t => Some (yield_then toks t)
          end
        end
      end
    else Some ([], Return)
  end.

Definition read_token_stream (src_text : bytes) : option trace :=
  tokens_from (S (length src_text)) src_text 0.

End V2.

(** ** The classes around the tokenizer

    [LiteralHandlingIter], [Lexer] and [TokenSource] read the same in both
    revisions, apart from the [read_token_stream] they call (and a
    conversion [bytes(tok)] of the bytearray in the second revision, the
    identity here). *)

(** A response record: a plain line, or a tuple of a line ending with a
    literal marker and the literal. *)
Inductive ResponseRecord :=
| Plain (line : bytes)
| WithLiteral (str_with_lit literal : bytes).

(** The attributes of a [LiteralHandlingIter] that are read; [literal]
    is [None] for a plain line. *)
Record LiteralHandlingIter := {
  src_text : bytes;
  literal : option bytes
}.

(** [LiteralHandlingIter.__init__] *)
Definition LiteralHandlingIter_init (resp_record : ResponseRecord)
  : LiteralHandlingIter + exn :=
  match resp_record with
  | WithLiteral str_with_lit lit =>
    match assert_imap_protocol (endswith str_with_lit [x7d]) (Some str_with_lit) with
    | Some e => inr e
    | None => inl {| src_text := str_with_lit; literal := Some lit |}
    end
  | Plain line => inl {| src_text := line; literal := None |}
  end.

(** The state of the generator [Lexer.__iter__]: not started, suspended
    at its [yield] with what the inner [read_token_stream] has yet to do,
    or finished (returned, or left by an exception). *)
Inductive gen_state :=
| Unstarted
| Suspended (rest : trace)
| Finished.

(** A [Lexer]: the chunks its generator expression [sources] has not
    consumed yet, and [current_source], [None] at first. *)
Record Lexer := {
  sources : list ResponseRecord;
  current_source : option LiteralHandlingIter
}.

(** A [TokenSource]: its lexer and the generator [iter(self.lex)], which
    assigns [current_source] of that same lexer. *)
Record TokenSource := {
  lex : Lexer;
  src : gen_state
}.

(** The outcome of [next(self.src)]. *)
Inductive pulled :=
| Token (tok : bytes)
| StopIteration
| Exception (e : exn).

Definition Lexer_init (text : list ResponseRecord) : Lexer :=
  {| sources := text; current_source := None |}.

Definition TokenSource_init (text : list ResponseRecord) : TokenSource :=
  {| lex := Lexer_init text; src := Unstarted |}.

(** The property [current_literal]: reading [literal] off [None] is an
    [AttributeError]. *)
Definition current_literal (ts : TokenSource) : option bytes + exn :=
  match current_source (lex ts) with
  | Some source => inl (literal source)
  | None => inr AttributeError
  end.

Section Classes.

Variable read_token_stream : bytes -> option trace.

(** [Lexer.__iter__] from the head of [for source in self.sources] up to
    its next [yield], its return or an exception. *)
Fixpoint for_source (srcs : list ResponseRecord) (cur : option LiteralHandlingIter)
  : option (pulled * TokenSource) :=
  match srcs with
  | [] =>
    Some (StopIteration,
          {| lex := {| sources := []; current_source := cur |}; src := Finished |})
  | chunk :: srcs' =>
    match LiteralHandlingIter_init chunk with
    | inr e =>
      Some (Exception e,
            {| lex := {| sources := srcs'; current_source := cur |}; src := Finished |})
    | inl source =>
      let lexer := {| sources := srcs'; current_source := Some source |} in
      match read_token_stream (src_text source) with
      | None => None
      | Some (tok :: toks, fin) =>
        Some (Token tok, {| lex := lexer; src := Suspended (toks, fin) |})
      | Some ([], Raise e) =>
        Some (Exception e, {| lex := lexer; src := Finished |})
      | Some ([], Return) => for_source srcs' (Some source)
      end
    end
  end.

(** [next(self.src)], one pull on the token source. *)
Definition next (ts : TokenSource) : option (pulled * TokenSource) :=
  match src ts with
  | Finished => Some (StopIteration, ts)
  | Unstarted => for_source (sources (lex ts)) (current_source (lex ts))
  | Suspended (tok :: toks, fin) =>
    Some (Token tok, {| lex := lex ts; src := Suspended (toks, fin) |})
  | Suspended ([], Raise e) =>
    Some (Exception e, {| lex := lex ts; src := Finished |})
  | Suspended ([], Return) =>
    for_source (sources (lex ts)) (current_source (lex ts))
  end.

(** [n] pulls in a row: what each gave, and the token source after the
    last one. *)
Fixpoint pulls (n : nat) (ts : TokenSource) : option (list pulled * TokenSource) :=
  match n with
  | O => Some ([], ts)
  | S n' =>
    match next ts with
    | None => None
    | Some (p, ts') =>
      match pulls n' ts' with
      | None => None
      | Some (ps, ts'') => Some (p :: ps, ts'')
      end
    end
  end.

End Classes.

(** ** The tokenizer as one pass over the text

    Both revisions walk the text once, in one of three modes: inside a
    word (with the pending token), inside square brackets, inside a
    quoted string.  [automaton] is that walk by recursion on the text
    still to read, with bytes compared as the second revision compares
    them; [unexpected_quote] is the exception for a quote inside a word.
    It is a device of the proofs: [V2_read_token_stream_automaton] shows
    that the second revision computes it on every text, and
    [V1_read_token_stream_automaton] that the first does on a text whose
    bytes fit its [char]. *)

Inductive mode :=
| Word (token : bytes)
| Bracket (token : bytes)
| Quote (token : bytes).

Definition pending (token : bytes) : list bytes :=
  if V2.truth token then [token] else [].

Section Automaton.

Variable unexpected_quote : exn.

Fixpoint automaton (m : mode) (s : bytes) : trace :=
  match s with
  | [] =>
    match m with
    | Word token => (pending token, Return)
    | Bracket _ => ([], Raise (ValueError (no_closing CLOSE_SQUARE_CHR)))
    | Quote _ => ([], Raise (ValueError (no_closing DOUBLE_QUOTE_CHR)))
    end
  | c :: s' =>
    match m with
    | Word token =>
      if memb c wordchars then automaton (Word (token ++ [c])) s'
      else if Byte.eqb c OPEN_SQUARE_CHR then automaton (Bracket (token ++ [c])) s'
      else if memb c whitespace then
        yield_then (pending token) (automaton (Word []) s')
      else if Byte.eqb c DOUBLE_QUOTE_CHR then
        if V2.truth token then ([], Raise unexpected_quote)
        else automaton (Quote [c]) s'
      else yield_then (pending token ++ [[c]]) (automaton (Word []) s')
    | Bracket token =>
      if Byte.eqb c CLOSE_SQUARE_CHR then automaton (Word (token ++ [c])) s'
      else automaton (Bracket (token ++ [c])) s'
    | Quote token =>
      if Byte.eqb c BACKSLASH_CHR then
        match s' with
        | [] => ([], Raise (ValueError (no_closing DOUBLE_QUOTE_CHR)))
        | c' :: s'' =>
          if Byte.eqb c' BACKSLASH_CHR || Byte.eqb c' DOUBLE_QUOTE_CHR then
            automaton (Quote (token ++ [c'])) s''
          else automaton (Quote (token ++ [c])) s'
        end
      else if Byte.eqb c DOUBLE_QUOTE_CHR then
        yield_then [token ++ [c]] (automaton (Word []) s')
      else automaton (Quote (token ++ [c])) s'
    end
  end.

End Automaton.

(** ** The vocabulary of the properties *)

(** The errors by the names the specification gives them.  A quote
    inside a word is a [ValueError] with an empty message in the first
    revision and a failed [assert_imap_protocol] in the second. *)
Definition UnterminatedBracket : exn := ValueError (no_closing CLOSE_SQUARE_CHR).
Definition UnterminatedQuote : exn := ValueError (no_closing DOUBLE_QUOTE_CHR).
Definition V1_UnexpectedQuote : exn := ValueError String.EmptyString.
Definition V2_UnexpectedQuote : exn := ProtocolError None.
Definition MalformedLiteralRecord (src_text : bytes) : exn :=
  ProtocolError (Some src_text).

Definition wordchar (c : byte) : bool := memb c wordchars.

(** An atom: a token of word characters only. *)
Definition atom (t : bytes) : bool := V2.truth t && forallb wordchar t.

(** A quoted string: a body between two double quotes. *)
Definition quoted (body : bytes) : bytes :=
  DOUBLE_QUOTE_CHR :: body ++ [DOUBLE_QUOTE_CHR].

Definition is_escaped (c : byte) : bool :=
  Byte.eqb c BACKSLASH_CHR || Byte.eqb c DOUBLE_QUOTE_CHR.

(** The body of a quoted string with its escapes resolved, in the words
    of the specification: a backslash before a backslash or a double
    quote leaves only the escaped byte, any other backslash stays and the
    byte after it is read as usual. *)
Fixpoint unescape (body : bytes) : bytes :=
  match body with
  | [] => []
  | c :: body' =>
    if Byte.eqb c BACKSLASH_CHR then
      match body' with
      | [] => [c]
      | c' :: body'' =>
        if is_escaped c' then c' :: unescape body'' else c :: unescape body'
      end
    else c :: unescape body'
  end.

(** A text that can stand between the two quotes of a quoted string:
    every double quote in it is escaped, and it does not end with a
    backslash that would escape the closing quote. *)
Fixpoint quoted_body (body : bytes) : bool :=
  match body with
  | [] => true
  | c :: body' =>
    if Byte.eqb c BACKSLASH_CHR then
      match body' with
      | [] => false
      | c' :: body'' =>
        if is_escaped c' then quoted_body body'' else quoted_body body'
      end
    else negb (Byte.eqb c DOUBLE_QUOTE_CHR) && quoted_body body'
  end.

(** The text after an opening quote holds a closing quote that is not
    escaped. *)
Fixpoint has_closing_quote (s : bytes) : bool :=
  match s with
  | [] => false
  | c :: s' =>
    if Byte.eqb c BACKSLASH_CHR then
      match s' with
      | [] => false
      | c' :: s'' =>
        if is_escaped c' then has_closing_quote s'' else has_closing_quote s'
      end
    else if Byte.eqb c DOUBLE_QUOTE_CHR then true
    else has_closing_quote s'
  end.

(** A body that reads back as itself: no double quote, and no backslash
    that stands last or before another backslash. *)
Fixpoint verbatim (body : bytes) : bool :=
  match body with
  | [] => true
  | c :: body' =>
    if Byte.eqb c BACKSLASH_CHR then
      match body' with
      | [] => false
      | c' :: _ => negb (is_escaped c') && verbatim body'
      end
    else negb (Byte.eqb c DOUBLE_QUOTE_CHR) && verbatim body'
  end.

(** A text at which a word ends without a further token being yielded
    with it: the end of the text, or whitespace. *)
Definition boundary (rest : bytes) : bool :=
  match rest with
  | [] => true
  | c :: _ => memb c whitespace
  end.

(** Two generators agree: the same tokens, and both return or both
    raise. *)
Definition same_trace (t1 t2 : trace) : Prop :=
  fst t1 = fst t2 /\ (snd t1 = Return <-> snd t2 = Return).

Definition same_gen (g1 g2 : gen_state) : Prop :=
  match g1, g2 with
  | Unstarted, Unstarted => True
  | Suspended t1, Suspended t2 => same_trace t1 t2
  | Finished, Finished => True
  | _, _ => False
  end.

Definition same_source (ts1 ts2 : TokenSource) : Prop :=
  lex ts1 = lex ts2 /\ same_gen (src ts1) (src ts2).

(** Two pulls agree: the same token, or both the end, or both an
    exception. *)
Definition same_pull (p1 p2 : pulled) : Prop :=
  match p1, p2 with
  | Token t1, Token t2 => t1 = t2
  | StopIteration, StopIteration => True
  | Exception _, Exception _ => True
  | _, _ => False
  end.

(** What a pull gives in both lexers: agreeing outcomes and agreeing
    token sources. *)
Definition same_step (r1 r2 : option (pulled * TokenSource)) : Prop :=
  match r1, r2 with
  | Some (p1, ts1), Some (p2, ts2) => same_pull p1 p2 /\ same_source ts1 ts2
  | _, _ => False
  end.

(** A record sequence whose first record can be constructed: the first
    pull makes it the current one. *)
Definition begins (text : list ResponseRecord) : bool :=
  match text with
  | [] => false
  | chunk :: _ =>
    match LiteralHandlingIter_init chunk with
    | inl _ => true
    | inr _ => false
    end
  end.

(** The lexer of a token source over [text] holds chunks of [text], and
    its current source, if any, was made from one of them. *)
Definition from_text (text : list ResponseRecord) (ts : TokenSource) : Prop :=
  (forall chunk, In chunk (sources (lex ts)) -> In chunk text) /\
  (forall source, current_source (lex ts) = Some source ->
     exists chunk, In chunk text /\ LiteralHandlingIter_init chunk = inl source).

(** The text of a record, which is the text the tokenizer reads. *)
Definition record_text (chunk : ResponseRecord) : bytes :=
  match chunk with
  | Plain line => line
  | WithLiteral str_with_lit _ => str_with_lit
  end.

(** Records whose texts fit the [char] of a build. *)
Definition fit_records (b : build) (text : list ResponseRecord) : bool :=
  forallb (fun chunk => fit b (record_text chunk)) text.

(** A record is current. *)
Definition started (ts : TokenSource) : Prop := current_source (lex ts) <> None.

(** The answer of [current_literal] when a record of [text] is current. *)
Definition literal_of_record (text : list ResponseRecord) (ts : TokenSource) : Prop :=
  exists chunk source,
    In chunk text /\ LiteralHandlingIter_init chunk = inl source /\
    current_source (lex ts) = Some source /\
    current_literal ts = inl (literal source).

(** What a caller sees of [n] pulls on a fresh token source over [text]:
    the outcome of each pull, and [current_literal] after the last. *)
Definition observe (rts : bytes -> option trace) (n : nat)
    (text : list ResponseRecord) : option (list pulled * (option bytes + exn)) :=
  match pulls rts n (TokenSource_init text) with
  | Some (ps, ts) => Some (ps, current_literal ts)
  | None => None
  end.

(** The inputs of the scenarios of the specification. *)
(** A bytes literal. *)
Definition b' (s : String.string) : bytes := String.list_byte_of_string s.

Definition literal_records : list ResponseRecord :=
  [WithLiteral (b' "a1 FETCH {5}") (b' "hello"); Plain (b' "b2 OK")].

(** The input with two escapes, and the token it gives. *)
Definition escaped_input : bytes :=
  quoted (b' "ab" ++ [BACKSLASH_CHR; DOUBLE_QUOTE_CHR] ++ b' "cd"
          ++ [BACKSLASH_CHR; BACKSLASH_CHR] ++ b' "ef").
Definition escaped_token : bytes :=
  quoted (b' "ab" ++ [DOUBLE_QUOTE_CHR] ++ b' "cd" ++ [BACKSLASH_CHR] ++ b' "ef").

(** ** The first revision as one pass over the text

    The walk of the first revision on a build, [char] and all: a byte
    is classed by what the tables give at its [char], a whitespace byte
    at the start of a token is skipped by the loop that indexes by the
    ordinal, whitespace found by the scan loop yields the pending token
    as it is, and a byte that does not fit the [char] cannot be appended
    inside a quoted string.  [V1_read_token_stream_automaton1] shows
    that the first revision computes it. *)

Section Automaton1.

Variable b : build.

Fixpoint automaton1 (m : mode) (s : bytes) : trace :=
  match s with
  | [] =>
    match m with
    | Word token => (pending token, Return)
    | Bracket _ => ([], Raise UnterminatedBracket)
    | Quote _ => ([], Raise UnterminatedQuote)
    end
  | c :: s' =>
    match m with
    | Word token =>
      if negb (V2.truth token) && memb c whitespace then automaton1 (Word []) s'
      else if WC_at b (to_char b (ord c)) then automaton1 (Word (token ++ [c])) s'
      else if Byte.eqb c OPEN_SQUARE_CHR then automaton1 (Bracket (token ++ [c])) s'
      else if WS_at b (to_char b (ord c)) then
        yield_then [token] (automaton1 (Word []) s')
      else if Byte.eqb c DOUBLE_QUOTE_CHR then
        if V2.truth token then ([], Raise V1_UnexpectedQuote)
        else automaton1 (Quote [c]) s'
      else yield_then (pending token ++ [[c]]) (automaton1 (Word []) s')
    | Bracket token =>
      if Byte.eqb c CLOSE_SQUARE_CHR then automaton1 (Word (token ++ [c])) s'
      else automaton1 (Bracket (token ++ [c])) s'
    | Quote token =>
      if negb (fits b c) then ([], Raise ByteRange)
      else if Byte.eqb c BACKSLASH_CHR then
        match s' with
        | [] => ([], Raise UnterminatedQuote)
        | c' :: s'' =>
          if Byte.eqb c' BACKSLASH_CHR || Byte.eqb c' DOUBLE_QUOTE_CHR then
            automaton1 (Quote (token ++ [c'])) s''
          else automaton1 (Quote (token ++ [c])) s'
        end
      else if Byte.eqb c DOUBLE_QUOTE_CHR then
        yield_then [token ++ [c]] (automaton1 (Word []) s')
      else automaton1 (Quote (token ++ [c])) s'
    end
  end.

End Automaton1.

(** ** The vocabulary of further properties *)

(** The bytes of the literal of [SPECIALS]. *)
Definition specials : list byte := [x20; x28; x29; x25; x22; x5b].

(** A byte that the scan loop yields as a token of its own: no word
    character, no opening square bracket, no whitespace, no double
    quote. *)
Definition punctuation (c : byte) : bool :=
  negb (memb c wordchars) && negb (Byte.eqb c OPEN_SQUARE_CHR)
  && negb (memb c whitespace) && negb (Byte.eqb c DOUBLE_QUOTE_CHR).

(** A walk over a word with its groups in square brackets: inside a
    group everything is read up to the first closing bracket, outside
    one only word characters and an opening bracket; the result says
    whether the walk ends inside a group. *)
Fixpoint word_scan (in_bracket : bool) (t : bytes) : option bool :=
  match t with
  | [] => Some in_bracket
  | c :: t' =>
    if in_bracket then word_scan (negb (Byte.eqb c CLOSE_SQUARE_CHR)) t'
    else if memb c wordchars then word_scan false t'
    else if Byte.eqb c OPEN_SQUARE_CHR then word_scan true t'
    else None
  end.

(** A word: word characters and closed groups in square brackets, at
    least one byte. *)
Definition word (t : bytes) : bool :=
  V2.truth t &&
  match word_scan false t with
  | Some false => true
  | _ => false
  end.

(** The three kinds of token. *)
Definition token_kind (t : bytes) : Prop :=
  (exists c, t = [c] /\ punctuation c = true) \/
  (exists body, t = quoted body) \/
  word t = true.

(** A body written with escapes: a backslash before every backslash and
    every double quote. *)
Fixpoint escape (body : bytes) : bytes :=
  match body with
  | [] => []
  | c :: body' =>
    if is_escaped c then BACKSLASH_CHR :: c :: escape body'
    else c :: escape body'
  end.

(** [sep.join(toks)] for a one-byte [sep]. *)
Fixpoint join (sep : byte) (toks : list bytes) : bytes :=
  match toks with
  | [] => []
  | [t] => t
  | t :: toks' => t ++ sep :: join sep toks'
  end.

(** A text without whitespace. *)
Definition strip (s : bytes) : bytes :=
  filter (fun c => negb (memb c whitespace)) s.

Section Records.

Variable rts : bytes -> option trace.

(** A record that is constructed and tokenized without an exception,
    with the tokens it gives. *)
Definition clean (chunk : ResponseRecord) (toks : list bytes) : Prop :=
  exists source,
    LiteralHandlingIter_init chunk = inl source /\
    rts (src_text source) = Some (toks, Return).

End Records.

(** The current source after the records [pre] have been begun in
    turn, starting from [cur]. *)
Fixpoint last_source (pre : list ResponseRecord) (cur : option LiteralHandlingIter)
  : option LiteralHandlingIter :=
  match pre with
  | [] => cur
  | chunk :: pre' =>
    match LiteralHandlingIter_init chunk with
    | inl source => last_source pre' (Some source)
    | inr _ => last_source pre' cur
    end
  end.

(** What [current_literal] gives for a current source. *)
Definition literal_query (cur : option LiteralHandlingIter) : option bytes + exn :=
  match cur with
  | Some source => inl (literal source)
  | None => inr AttributeError
  end.

(** The endings of the tokenizer: it returns, or raises for a missing
    closing bracket, for a missing closing quote, or for a quote inside
    a word (the exception [uq] of the revision). *)
Definition ending_of_four (uq : exn) (e : ending) : Prop :=
  e = Return \/ e = Raise UnterminatedBracket \/
  e = Raise UnterminatedQuote \/ e = Raise uq.

(** The mode of the walk inside a word, in a group or not. *)
Definition word_mode (in_bracket : bool) (token : bytes) : mode :=
  if in_bracket then Bracket token else Word token.

(** What the pending token of a mode looks like: a word so far, a word
    with an open group, or an opening quote and a body. *)
Definition mode_kind (m : mode) : Prop :=
  match m with
  | Word token => word_scan false token = Some false
  | Bracket token => word_scan false token = Some true
  | Quote token => exists body, token = DOUBLE_QUOTE_CHR :: body
  end.

(** The pending token of a mode. *)
Definition mode_token (m : mode) : bytes :=
  match m with
  | Word token | Bracket token | Quote token => token
  end.

(** The generator [Lexer.__iter__] stands at the head of its loop over
    the sources: it has not started, or the tokens of the record it was
    suspended in are used up. *)
Definition at_head (g : gen_state) : Prop :=
  g = Unstarted \/ g = Suspended ([], Return).

(** Case analysis on every test of a goal. *)
Ltac split_tests :=
  repeat match goal with
  | |- context [if ?b then _ else _] => destruct b
  end.

(** ** Bytes and their classes *)

Lemma chr_ord (c : byte) : chr (ord c) = c.
Proof. destruct c; reflexivity. Qed.

Lemma WC_ord (c : byte) : WC (ord c) = memb c wordchars.
Proof. destruct c; vm_compute; reflexivity. Qed.

Lemma WS_ord (c : byte) : WS (ord c) = memb c whitespace.
Proof. destruct c; vm_compute; reflexivity. Qed.

Lemma ord_eqb (c d : byte) : (ord c =? ord d) = Byte.eqb c d.
Proof.
  destruct (Byte.eqb c d) eqn:E.
  - apply Byte.byte_dec_bl in E. subst. apply Z.eqb_refl.
  - apply Z.eqb_neq. intro H. apply Byte.eqb_false in E. apply E.
    rewrite <- (chr_ord c), <- (chr_ord d), H. reflexivity.
Qed.

Lemma eqb_refl (c : byte) : Byte.eqb c c = true.
Proof. apply Byte.byte_dec_lb. reflexivity. Qed.

Lemma eqb_eq (c d : byte) : Byte.eqb c d = true <-> c = d.
Proof. split; [apply Byte.byte_dec_bl | apply Byte.byte_dec_lb]. Qed.

Lemma eqb_neq (c d : byte) : Byte.eqb c d = false <-> c <> d.
Proof.
  split.
  - apply Byte.eqb_false.
  - intro H. destruct (Byte.eqb c d) eqn:E; [|reflexivity].
    apply eqb_eq in E. contradiction.
Qed.

(** The tests of the first revision are those of the second. *)
Lemma is_backslash (c : byte) : (ord c =? BACKSLASH) = Byte.eqb c BACKSLASH_CHR.
Proof. apply ord_eqb. Qed.
Lemma is_open_square (c : byte) : (ord c =? OPEN_SQUARE) = Byte.eqb c OPEN_SQUARE_CHR.
Proof. apply ord_eqb. Qed.
Lemma is_double_quote (c : byte) : (ord c =? DOUBLE_QUOTE) = Byte.eqb c DOUBLE_QUOTE_CHR.
Proof. apply ord_eqb. Qed.

(** ** Indexing, slicing and searching *)

Lemma len_nonneg (s : bytes) : 0 <= len s.
Proof. unfold len. lia. Qed.

Lemma skipn_nth (n : nat) : forall s : bytes,
  (n < length s)%nat -> skipn n s = nth n s x00 :: skipn (S n) s.
Proof.
  induction n as [|n IH]; intros [|c s] H; simpl in *; try lia.
  - reflexivity.
  - apply IH. lia.
Qed.

Lemma skipn_getitem (s : bytes) (p : Z) :
  0 <= p < len s ->
  skipn (Z.to_nat p) s = getitem s p :: skipn (Z.to_nat (p + 1)) s.
Proof.
  unfold len, getitem. intro H.
  replace (Z.to_nat (p + 1)) with (S (Z.to_nat p)) by lia.
  apply skipn_nth. lia.
Qed.

Lemma skipn_end (s : bytes) (p : Z) :
  len s <= p -> skipn (Z.to_nat p) s = [].
Proof. unfold len. intro H. apply skipn_all2. lia. Qed.

Lemma firstn_add {A} (n m : nat) : forall l : list A,
  firstn (n + m) l = firstn n l ++ firstn m (skipn n l).
Proof.
  induction n as [|n IH]; intros [|x l]; simpl; try reflexivity.
  - now rewrite firstn_nil.
  - now rewrite IH.
Qed.

Lemma slice_firstn (s : bytes) (a b : Z) :
  0 <= a <= b ->
  slice s a b = firstn (Z.to_nat (b - a)) (skipn (Z.to_nat a) s).
Proof. intro H. unfold slice. f_equal. lia. Qed.

Lemma slice_empty (s : bytes) (a : Z) : slice s a a = [].
Proof. unfold slice. now rewrite Nat.sub_diag. Qed.

Lemma slice_app (s : bytes) (a m b : Z) :
  0 <= a <= m -> m <= b -> slice s a b = slice s a m ++ slice s m b.
Proof.
  intros H1 H2. unfold slice.
  replace (Z.to_nat b - Z.to_nat a)%nat
    with ((Z.to_nat m - Z.to_nat a) + (Z.to_nat b - Z.to_nat m))%nat by lia.
  rewrite firstn_add, skipn_skipn.
  do 3 f_equal. lia.
Qed.

Lemma slice_one (s : bytes) (p : Z) :
  0 <= p < len s -> slice s p (p + 1) = [getitem s p].
Proof.
  intro H. rewrite slice_firstn by lia. rewrite skipn_getitem by lia.
  replace (Z.to_nat (p + 1 - p)) with 1%nat by lia. reflexivity.
Qed.

Lemma slice_snoc (s : bytes) (a p : Z) :
  0 <= a <= p -> p < len s -> slice s a (p + 1) = slice s a p ++ [getitem s p].
Proof.
  intros H1 H2. rewrite (slice_app s a p (p + 1)) by lia.
  now rewrite slice_one by lia.
Qed.

Lemma slice_length (s : bytes) (a p : Z) :
  0 <= a <= p -> p <= len s -> len (slice s a p) = p - a.
Proof.
  intros H1 H2. unfold len in *. rewrite slice_firstn by lia.
  rewrite length_firstn, length_skipn. lia.
Qed.

Lemma truth_len (token : bytes) : V2.truth token = (len token >? 0).
Proof. destruct token; reflexivity. Qed.

Lemma truth_slice (s : bytes) (a p : Z) :
  0 <= a <= p -> p <= len s -> V2.truth (slice s a p) = (p >? a).
Proof.
  intros H1 H2. rewrite truth_len, slice_length by lia.
  destruct (p >? a) eqn:E; lia.
Qed.

Lemma truth_app (token : bytes) (c : byte) : V2.truth (token ++ [c]) = true.
Proof. destruct token; reflexivity. Qed.


(** [find_from] gives -1 or the index of the first [c]. *)
Lemma find_from_range (c : byte) : forall (s : bytes) (i : Z),
  0 <= i ->
  find_from s c i = -1 \/ i <= find_from s c i < i + len s.
Proof.
  induction s as [|d s IH]; intros i Hi; simpl.
  - now left.
  - unfold len. simpl length. destruct (Byte.eqb d c).
    + right. lia.
    + destruct (IH (i + 1)) as [H|H]; [lia | now left |].
      right. unfold len in H. lia.
Qed.

Lemma find_range (s : bytes) (c : byte) (p : Z) :
  0 <= p <= len s ->
  find s c p = -1 \/ p <= find s c p < len s.
Proof.
  intro H. unfold find.
  destruct (find_from_range c (skipn (Z.to_nat p) s) p) as [E|E]; [lia | now left |].
  right. unfold len in *. rewrite length_skipn in E. lia.
Qed.

(** ** The automaton inside square brackets *)

Section AutomatonFacts.

Variable uq : exn.

Lemma automaton_bracket : forall (s : bytes) (token : bytes) (i : Z),
  0 <= i ->
  let ind := find_from s CLOSE_SQUARE_CHR i in
  if ind =? -1 then
    automaton uq (Bracket token) s
    = ([], Raise (ValueError (no_closing CLOSE_SQUARE_CHR)))
  else
    automaton uq (Bracket token) s
    = automaton uq (Word (token ++ firstn (Z.to_nat (ind + 1 - i)) s))
                (skipn (Z.to_nat (ind + 1 - i)) s).
Proof.
  induction s as [|d s IH]; intros token i Hi; simpl.
  - reflexivity.
  - destruct (Byte.eqb d CLOSE_SQUARE_CHR) eqn:E.
    + replace (i =? -1) with false by lia.
      replace (Z.to_nat (i + 1 - i)) with 1%nat by lia. reflexivity.
    + specialize (IH (token ++ [d]) (i + 1) ltac:(lia)). simpl in IH.
      destruct (find_from_range CLOSE_SQUARE_CHR s (i + 1) ltac:(lia)) as [F|F].
      * rewrite F in *. simpl in *. exact IH.
      * replace (find_from s CLOSE_SQUARE_CHR (i + 1) =? -1) with false in * by lia.
        rewrite IH.
        replace (Z.to_nat (find_from s CLOSE_SQUARE_CHR (i + 1) + 1 - i))
          with (S (Z.to_nat (find_from s CLOSE_SQUARE_CHR (i + 1) + 1 - (i + 1)))) by lia.
        simpl. now rewrite <- app_assoc.
Qed.

(** The same for a search in the text from a cursor. *)
Lemma automaton_bracket_find (src : bytes) (token : bytes) (p : Z) :
  0 <= p <= len src ->
  let ind := find src CLOSE_SQUARE_CHR p in
  if ind =? -1 then
    automaton uq (Bracket token) (skipn (Z.to_nat p) src)
    = ([], Raise (ValueError (no_closing CLOSE_SQUARE_CHR)))
  else
    automaton uq (Bracket token) (skipn (Z.to_nat p) src)
    = automaton uq (Word (token ++ slice src p (ind + 1)))
                (skipn (Z.to_nat (ind + 1)) src).
Proof.
  intros Hp ind.
  pose proof (automaton_bracket (skipn (Z.to_nat p) src) token p ltac:(lia)) as H.
  pose proof (find_range src CLOSE_SQUARE_CHR p Hp) as R.
  fold (find src CLOSE_SQUARE_CHR p) in H. fold ind in H, R. simpl in H.
  destruct (ind =? -1) eqn:E; [exact H|].
  rewrite H, skipn_skipn, slice_firstn by lia.
  do 3 f_equal. lia.
Qed.

End AutomatonFacts.

(** ** The second revision computes the automaton *)

Lemma whitespace_class (c : byte) :
  memb c whitespace = true ->
  memb c wordchars = false /\ Byte.eqb c OPEN_SQUARE_CHR = false.
Proof. destruct c; vm_compute; intro H; try discriminate H; split; reflexivity. Qed.

Lemma yield_nil_then (t : trace) : yield_then [] t = t.
Proof. destruct t. reflexivity. Qed.

Lemma yield_then_nil (toks : list bytes) : yield_then toks ([], Return) = (toks, Return).
Proof. unfold yield_then. simpl. now rewrite app_nil_r. Qed.

Section QuoteLoop.

Variable uq : exn.
Variable src : bytes.

Lemma V2_quote_loop_automaton : forall (fuel : nat) (ptr : Z) (token : bytes),
  0 <= ptr -> (Z.to_nat (len src - ptr) < fuel)%nat ->
  exists r, V2.quote_loop fuel src ptr token = Some r /\
    match r with
    | inr e =>
      automaton uq (Quote token) (skipn (Z.to_nat ptr) src) = ([], Raise e)
    | inl (ptr', token') =>
      ptr < ptr' <= len src /\
      automaton uq (Quote token) (skipn (Z.to_nat ptr) src)
      = yield_then [token'] (automaton uq (Word []) (skipn (Z.to_nat ptr') src))
    end.
Proof.
  induction fuel as [|fuel IH]; intros ptr token Hp Hf; [lia|].
  cbn [V2.quote_loop]. cbv zeta.
  destruct (ptr <? len src) eqn:Hlt.
  - apply Z.ltb_lt in Hlt.
    rewrite (skipn_getitem src ptr) by lia.
    set (c := getitem src ptr). cbn [automaton].
    assert (Fall :
      Byte.eqb c DOUBLE_QUOTE_CHR = false ->
      exists r, V2.quote_loop fuel src (ptr + 1) (token ++ [c]) = Some r /\
        match r with
        | inr e =>
          automaton uq (Quote (token ++ [c])) (skipn (Z.to_nat (ptr + 1)) src)
          = ([], Raise e)
        | inl (ptr', token') =>
          ptr < ptr' <= len src /\
          automaton uq (Quote (token ++ [c])) (skipn (Z.to_nat (ptr + 1)) src)
          = yield_then [token'] (automaton uq (Word []) (skipn (Z.to_nat ptr') src))
        end).
    { intros _. destruct (IH (ptr + 1) (token ++ [c])) as [r [E R]]; [lia | lia |].
      exists r. split; [exact E|]. destruct r as [[ptr' token']|e]; [|exact R].
      split; [lia | apply R]. }
    destruct (Byte.eqb c BACKSLASH_CHR) eqn:Ebs.
    + assert (Byte.eqb c DOUBLE_QUOTE_CHR = false) as Edq.
      { apply eqb_eq in Ebs. rewrite Ebs. reflexivity. }
      destruct (ptr + 1 >=? len src) eqn:Hge.
      * rewrite (skipn_end src (ptr + 1)) by lia.
        eexists. split; [reflexivity|]. reflexivity.
      * rewrite (skipn_getitem src (ptr + 1)) by lia.
        set (c' := getitem src (ptr + 1)).
        destruct (Byte.eqb c' BACKSLASH_CHR || Byte.eqb c' DOUBLE_QUOTE_CHR) eqn:Eesc.
        -- destruct (IH (ptr + 1 + 1) (token ++ [c'])) as [r [E R]]; [lia | lia |].
           exists r. split; [exact E|]. destruct r as [[ptr' token']|e]; [|exact R].
           split; [lia | apply R].
        -- rewrite Edq. unfold c'. rewrite <- (skipn_getitem src (ptr + 1)) by lia.
           apply Fall, Edq.
    + destruct (Byte.eqb c DOUBLE_QUOTE_CHR) eqn:Edq.
      * eexists. split; [reflexivity|]. split; [lia | reflexivity].
      * apply Fall, eq_refl.
  - apply Z.ltb_ge in Hlt. rewrite (skipn_end src ptr) by lia.
    eexists. split; [reflexivity|]. reflexivity.
Qed.

Lemma V2_skip_whitespace_automaton : forall (fuel : nat) (ptr : Z),
  0 <= ptr <= len src -> (Z.to_nat (len src - ptr) < fuel)%nat ->
  exists ptr', V2.skip_whitespace fuel src ptr = Some ptr' /\
    ptr <= ptr' <= len src /\
    (len src <= ptr' \/ memb (getitem src ptr') whitespace = false) /\
    automaton uq (Word []) (skipn (Z.to_nat ptr) src)
    = automaton uq (Word []) (skipn (Z.to_nat ptr') src).
Proof.
  induction fuel as [|fuel IH]; intros ptr Hp Hf; [lia|].
  cbn [V2.skip_whitespace].
  destruct (ptr <? len src) eqn:Hlt; cbn [andb].
  - apply Z.ltb_lt in Hlt.
    destruct (memb (getitem src ptr) whitespace) eqn:Ews.
    + destruct (IH (ptr + 1)) as [ptr' [E [R1 [R2 R3]]]]; [lia | lia |].
      exists ptr'. split; [exact E|]. split; [lia|]. split; [exact R2|].
      rewrite (skipn_getitem src ptr) by lia. cbn [automaton].
      destruct (whitespace_class _ Ews) as [W1 W2]. rewrite W1, W2, Ews.
      unfold pending. cbn [V2.truth]. now rewrite yield_nil_then.
    + exists ptr. split; [reflexivity|]. split; [lia|]. split; [now right | reflexivity].
  - apply Z.ltb_ge in Hlt.
    exists ptr. split; [reflexivity|]. split; [lia|]. split; [now left | reflexivity].
Qed.

End QuoteLoop.

Section V2Automaton.

Variable src : bytes.

Lemma V2_scan_automaton : forall (fuel : nat) (ptr : Z) (token : bytes),
  0 <= ptr <= len src -> (Z.to_nat (len src - ptr) < fuel)%nat ->
  V2.truth token = true \/ len src <= ptr
    \/ memb (getitem src ptr) whitespace = false ->
  exists toks r, V2.scan fuel src ptr token = Some (toks, r) /\
    match r with
    | inr e =>
      automaton V2_UnexpectedQuote (Word token) (skipn (Z.to_nat ptr) src) = (toks, Raise e)
    | inl ptr' =>
      ptr <= ptr' <= len src /\ (ptr < len src -> ptr < ptr') /\
      automaton V2_UnexpectedQuote (Word token) (skipn (Z.to_nat ptr) src)
      = yield_then toks (automaton V2_UnexpectedQuote (Word []) (skipn (Z.to_nat ptr') src))
    end.
Proof.
  induction fuel as [|fuel IH]; intros ptr token Hp Hf Hpre; [lia|].
  cbn [V2.scan]. cbv zeta.
  destruct (ptr <? len src) eqn:Hlt.
  - apply Z.ltb_lt in Hlt.
    rewrite (skipn_getitem src ptr) by lia.
    set (c := getitem src ptr) in *. cbn [automaton].
    destruct (memb c wordchars) eqn:Ewc.
    { destruct (IH (ptr + 1) (token ++ [c])) as [toks [r [E R]]];
        [lia | lia | left; apply truth_app |].
      exists toks, r. split; [exact E|]. destruct r as [ptr'|e]; [|exact R].
      destruct R as [R1 [R2 R3]]. repeat split; try lia. exact R3. }
    destruct (Byte.eqb c OPEN_SQUARE_CHR) eqn:Eos.
    { pose proof (automaton_bracket_find V2_UnexpectedQuote src (token ++ [c]) (ptr + 1) ltac:(lia)) as B.
      pose proof (find_range src CLOSE_SQUARE_CHR (ptr + 1) ltac:(lia)) as F.
      simpl in B.
      destruct (find src CLOSE_SQUARE_CHR (ptr + 1) =? -1) eqn:Eind.
      - exists [], (inr (ValueError (no_closing CLOSE_SQUARE_CHR))).
        split; [reflexivity | exact B].
      - set (ind := find src CLOSE_SQUARE_CHR (ptr + 1)) in *.
        destruct (IH (ind + 1) ((token ++ [c]) ++ slice src (ptr + 1) (ind + 1)))
          as [toks [r [E R]]]; [lia | lia | |].
        { left. rewrite <- app_assoc. destruct token; reflexivity. }
        exists toks, r. split; [exact E|]. rewrite B.
        destruct r as [ptr'|e]; [|exact R].
        destruct R as [R1 [R2 R3]]. repeat split; try lia. exact R3. }
    destruct (memb c whitespace) eqn:Ews.
    { exists [token], (inl (ptr + 1)). split; [reflexivity|].
      repeat split; try lia.
      destruct Hpre as [T|[T|T]]; [|lia|congruence].
      unfold pending. now rewrite T. }
    destruct (Byte.eqb c DOUBLE_QUOTE_CHR) eqn:Edq.
    { destruct (V2.truth token) eqn:T; cbn [negb assert_imap_protocol].
      - exists [], (inr (ProtocolError None)). split; reflexivity.
      - destruct token; [|discriminate]. cbn [app].
        destruct (V2_quote_loop_automaton V2_UnexpectedQuote src (S (length src)) (ptr + 1) [c])
          as [r [E R]]; [lia | unfold len; lia |].
        rewrite E. destruct r as [[ptr' token']|e].
        + exists [token'], (inl ptr'). split; [reflexivity|].
          destruct R as [R1 R2]. repeat split; try lia. exact R2.
        + exists [], (inr e). split; [reflexivity | exact R]. }
    exists (pending token ++ [[c]]), (inl (ptr + 1)). split; [reflexivity|].
    repeat split; lia.
  - apply Z.ltb_ge in Hlt. rewrite (skipn_end src ptr) by lia.
    exists (pending token), (inl ptr). split; [reflexivity|].
    repeat split; try lia.
    rewrite (skipn_end src ptr) by lia. simpl. now rewrite yield_then_nil.
Qed.

Lemma V2_tokens_from_automaton : forall (fuel : nat) (ptr : Z),
  0 <= ptr <= len src -> (Z.to_nat (len src - ptr) < fuel)%nat ->
  V2.tokens_from fuel src ptr
  = Some (automaton V2_UnexpectedQuote (Word []) (skipn (Z.to_nat ptr) src)).
Proof.
  induction fuel as [|fuel IH]; intros ptr Hp Hf; [lia|].
  cbn [V2.tokens_from].
  destruct (ptr <? len src) eqn:Hlt.
  - apply Z.ltb_lt in Hlt.
    destruct (V2_skip_whitespace_automaton V2_UnexpectedQuote src (S (length src)) ptr)
      as [ptr1 [E1 [R1 [R2 R3]]]]; [lia | unfold len; lia |].
    rewrite E1, R3.
    destruct (V2_scan_automaton (S (length src)) ptr1 [])
      as [toks [r [E2 R]]]; [lia | unfold len; lia | now right |].
    rewrite E2. destruct r as [ptr2|e].
    + destruct R as [R4 [R5 R6]].
      rewrite IH by lia. now rewrite R6.
    + now rewrite R.
  - apply Z.ltb_ge in Hlt. now rewrite (skipn_end src ptr) by lia.
Qed.

End V2Automaton.

Lemma V2_read_token_stream_automaton (src_text : bytes) :
  V2.read_token_stream src_text
  = Some (automaton V2_UnexpectedQuote (Word []) src_text).
Proof.
  unfold V2.read_token_stream.
  rewrite V2_tokens_from_automaton by (pose proof (len_nonneg src_text); unfold len; lia).
  reflexivity.
Qed.

(** ** The [char] of a byte *)

Lemma ord_range (c : byte) : 0 <= ord c < 256.
Proof. unfold ord. pose proof (Byte.to_N_bounded c). lia. Qed.

Lemma to_char_fits (b : build) (c : byte) :
  fits b c = true -> to_char b (ord c) = ord c.
Proof.
  unfold fits, to_char.
  destruct (ord c <? 128) eqn:L, (128 <=? ord c) eqn:G, (char_signed b);
    cbn [negb orb andb]; intro H; try reflexivity; try discriminate H; lia.
Qed.

Lemma to_char_unfit (b : build) (c : byte) :
  fits b c = false -> to_char b (ord c) < 0.
Proof.
  unfold fits, to_char. pose proof (ord_range c) as R.
  destruct (ord c <? 128) eqn:L, (128 <=? ord c) eqn:G, (char_signed b);
    cbn [negb orb andb]; intro H; try discriminate H; lia.
Qed.

(** A comparison of a [char] with the ordinal of a byte below 128 is
    a comparison of bytes, whatever the build. *)
Lemma char_eqb (b : build) (c d : byte) :
  ord d < 128 -> (to_char b (ord c) =? ord d) = Byte.eqb c d.
Proof.
  intro Hd. rewrite <- ord_eqb. unfold to_char.
  pose proof (ord_range c). pose proof (ord_range d).
  destruct ((128 <=? ord c) && char_signed b) eqn:E; [|reflexivity].
  apply andb_prop in E. destruct E as [E _]. apply Z.leb_le in E.
  transitivity false; [|symmetry]; apply Z.eqb_neq; lia.
Qed.

Lemma char_is_backslash (b : build) (c : byte) :
  (to_char b (ord c) =? BACKSLASH) = Byte.eqb c BACKSLASH_CHR.
Proof. apply char_eqb. reflexivity. Qed.
Lemma char_is_open_square (b : build) (c : byte) :
  (to_char b (ord c) =? OPEN_SQUARE) = Byte.eqb c OPEN_SQUARE_CHR.
Proof. apply char_eqb. reflexivity. Qed.
Lemma char_is_double_quote (b : build) (c : byte) :
  (to_char b (ord c) =? DOUBLE_QUOTE) = Byte.eqb c DOUBLE_QUOTE_CHR.
Proof. apply char_eqb. reflexivity. Qed.

(** Appending a [char] appends the byte if it fits and raises if not. *)
Lemma bytearray_append_char (b : build) (token : bytes) (c : byte) :
  bytearray_append token (to_char b (ord c))
  = if fits b c then inl (token ++ [c]) else inr ByteRange.
Proof.
  unfold bytearray_append. pose proof (ord_range c).
  destruct (fits b c) eqn:F.
  - rewrite to_char_fits, chr_ord by exact F.
    replace (0 <=? ord c) with true by lia.
    now replace (ord c <? 256) with true by lia.
  - apply to_char_unfit in F.
    now replace (0 <=? to_char b (ord c)) with false by lia.
Qed.

Lemma WC_at_fits (b : build) (c : byte) :
  fits b c = true -> WC_at b (to_char b (ord c)) = memb c wordchars.
Proof.
  intro F. rewrite to_char_fits by exact F. unfold WC_at.
  pose proof (ord_range c). replace (ord c <? 0) with false by lia. apply WC_ord.
Qed.

Lemma WS_at_fits (b : build) (c : byte) :
  fits b c = true -> WS_at b (to_char b (ord c)) = memb c whitespace.
Proof.
  intro F. rewrite to_char_fits by exact F. unfold WS_at.
  pose proof (ord_range c). replace (ord c <? 0) with false by lia. apply WS_ord.
Qed.

(** The bytes the tokenizer names fit every [char]. *)
Lemma unfit_class (b : build) (c : byte) :
  fits b c = false ->
  Byte.eqb c BACKSLASH_CHR = false /\ Byte.eqb c DOUBLE_QUOTE_CHR = false /\
  Byte.eqb c OPEN_SQUARE_CHR = false /\ memb c whitespace = false.
Proof. destruct c; vm_compute; intro H; try discriminate H; repeat split. Qed.

Lemma whitespace_fits (b : build) (c : byte) :
  memb c whitespace = true -> fits b c = true.
Proof.
  intro W. destruct (fits b c) eqn:F; [reflexivity|].
  apply unfit_class in F. destruct F as [_ [_ [_ F]]]. congruence.
Qed.

Lemma escaped_fits (b : build) (c : byte) :
  Byte.eqb c BACKSLASH_CHR || Byte.eqb c DOUBLE_QUOTE_CHR = true -> fits b c = true.
Proof.
  intro W. destruct (fits b c) eqn:F; [reflexivity|].
  apply unfit_class in F. destruct F as [F1 [F2 _]]. now rewrite F1, F2 in W.
Qed.

Lemma fit_app (b : build) (s1 s2 : bytes) :
  fit b (s1 ++ s2) = fit b s1 && fit b s2.
Proof. apply forallb_app. Qed.

Lemma fit_unsigned (b : build) (s : bytes) :
  char_signed b = false -> fit b s = true.
Proof.
  intro U. apply forallb_forall. intros c _. unfold fits. rewrite U.
  apply orb_true_r.
Qed.

(** ** The first revision computes its automaton *)

Section V1Automaton.

Variable b : build.

Lemma automaton1_bracket : forall (s : bytes) (token : bytes) (i : Z),
  0 <= i ->
  let ind := find_from s CLOSE_SQUARE_CHR i in
  if ind =? -1 then
    automaton1 b (Bracket token) s = ([], Raise UnterminatedBracket)
  else
    automaton1 b (Bracket token) s
    = automaton1 b (Word (token ++ firstn (Z.to_nat (ind + 1 - i)) s))
                 (skipn (Z.to_nat (ind + 1 - i)) s).
Proof.
  induction s as [|d s IH]; intros token i Hi; simpl.
  - reflexivity.
  - destruct (Byte.eqb d CLOSE_SQUARE_CHR) eqn:E.
    + replace (i =? -1) with false by lia.
      replace (Z.to_nat (i + 1 - i)) with 1%nat by lia. reflexivity.
    + specialize (IH (token ++ [d]) (i + 1) ltac:(lia)). simpl in IH.
      destruct (find_from_range CLOSE_SQUARE_CHR s (i + 1) ltac:(lia)) as [F|F].
      * rewrite F in *. simpl in *. exact IH.
      * replace (find_from s CLOSE_SQUARE_CHR (i + 1) =? -1) with false in * by lia.
        rewrite IH.
        replace (Z.to_nat (find_from s CLOSE_SQUARE_CHR (i + 1) + 1 - i))
          with (S (Z.to_nat (find_from s CLOSE_SQUARE_CHR (i + 1) + 1 - (i + 1)))) by lia.
        simpl. now rewrite <- app_assoc.
Qed.

Variable src : bytes.

Lemma automaton1_bracket_find (token : bytes) (p : Z) :
  0 <= p <= len src ->
  let ind := find src CLOSE_SQUARE_CHR p in
  if ind =? -1 then
    automaton1 b (Bracket token) (skipn (Z.to_nat p) src)
    = ([], Raise UnterminatedBracket)
  else
    automaton1 b (Bracket token) (skipn (Z.to_nat p) src)
    = automaton1 b (Word (token ++ slice src p (ind + 1)))
                 (skipn (Z.to_nat (ind + 1)) src).
Proof.
  intros Hp ind.
  pose proof (automaton1_bracket (skipn (Z.to_nat p) src) token p ltac:(lia)) as H.
  pose proof (find_range src CLOSE_SQUARE_CHR p Hp) as R.
  fold (find src CLOSE_SQUARE_CHR p) in H. fold ind in H, R. simpl in H.
  destruct (ind =? -1) eqn:E; [exact H|].
  rewrite H, skipn_skipn, slice_firstn by lia.
  do 3 f_equal. lia.
Qed.

Lemma V1_quote_loop_automaton1 : forall (fuel : nat) (ptr : Z) (token : bytes),
  0 <= ptr -> (Z.to_nat (len src - ptr) < fuel)%nat ->
  exists r, V1.quote_loop b fuel src ptr token = Some r /\
    match r with
    | inr e =>
      automaton1 b (Quote token) (skipn (Z.to_nat ptr) src) = ([], Raise e)
    | inl (ptr', token') =>
      ptr < ptr' <= len src /\
      automaton1 b (Quote token) (skipn (Z.to_nat ptr) src)
      = yield_then [token'] (automaton1 b (Word []) (skipn (Z.to_nat ptr') src))
    end.
Proof.
  induction fuel as [|fuel IH]; intros ptr token Hp Hf; [lia|].
  cbn [V1.quote_loop]. cbv zeta.
  destruct (ptr <? len src) eqn:Hlt.
  - apply Z.ltb_lt in Hlt.
    rewrite (skipn_getitem src ptr) by lia.
    set (c := getitem src ptr). cbn [automaton1].
    rewrite !char_is_backslash, !char_is_double_quote, !bytearray_append_char.
    destruct (fits b c) eqn:Fc; cbn [negb].
    2:{ destruct (unfit_class b c Fc) as [Ebs _]. rewrite Ebs.
        eexists. split; reflexivity. }
    assert (Fall :
      Byte.eqb c DOUBLE_QUOTE_CHR = false ->
      exists r, V1.quote_loop b fuel src (ptr + 1) (token ++ [c]) = Some r /\
        match r with
        | inr e =>
          automaton1 b (Quote (token ++ [c])) (skipn (Z.to_nat (ptr + 1)) src)
          = ([], Raise e)
        | inl (ptr', token') =>
          ptr < ptr' <= len src /\
          automaton1 b (Quote (token ++ [c])) (skipn (Z.to_nat (ptr + 1)) src)
          = yield_then [token'] (automaton1 b (Word []) (skipn (Z.to_nat ptr') src))
        end).
    { intros _. destruct (IH (ptr + 1) (token ++ [c])) as [r [E R]]; [lia | lia |].
      exists r. split; [exact E|]. destruct r as [[ptr' token']|e]; [|exact R].
      split; [lia | apply R]. }
    destruct (Byte.eqb c BACKSLASH_CHR) eqn:Ebs.
    + assert (Byte.eqb c DOUBLE_QUOTE_CHR = false) as Edq.
      { apply eqb_eq in Ebs. rewrite Ebs. reflexivity. }
      destruct (ptr + 1 >=? len src) eqn:Hge.
      * rewrite (skipn_end src (ptr + 1)) by lia.
        eexists. split; [reflexivity|]. reflexivity.
      * rewrite (skipn_getitem src (ptr + 1)) by lia.
        set (c' := getitem src (ptr + 1)).
        destruct (Byte.eqb c' BACKSLASH_CHR || Byte.eqb c' DOUBLE_QUOTE_CHR) eqn:Eesc.
        -- rewrite (escaped_fits b c' Eesc).
           destruct (IH (ptr + 1 + 1) (token ++ [c'])) as [r [E R]]; [lia | lia |].
           exists r. split; [exact E|]. destruct r as [[ptr' token']|e]; [|exact R].
           split; [lia | apply R].
        -- rewrite Edq. unfold c'. rewrite <- (skipn_getitem src (ptr + 1)) by lia.
           apply Fall, Edq.
    + destruct (Byte.eqb c DOUBLE_QUOTE_CHR) eqn:Edq.
      * eexists. split; [reflexivity|]. split; [lia | reflexivity].
      * apply Fall, eq_refl.
  - apply Z.ltb_ge in Hlt. rewrite (skipn_end src ptr) by lia.
    eexists. split; [reflexivity|]. reflexivity.
Qed.

Lemma V1_skip_whitespace_automaton1 : forall (fuel : nat) (ptr : Z),
  0 <= ptr <= len src -> (Z.to_nat (len src - ptr) < fuel)%nat ->
  exists ptr', V1.skip_whitespace fuel src ptr = Some ptr' /\
    ptr <= ptr' <= len src /\
    (len src <= ptr' \/ memb (getitem src ptr') whitespace = false) /\
    automaton1 b (Word []) (skipn (Z.to_nat ptr) src)
    = automaton1 b (Word []) (skipn (Z.to_nat ptr') src).
Proof.
  induction fuel as [|fuel IH]; intros ptr Hp Hf; [lia|].
  cbn [V1.skip_whitespace]. rewrite WS_ord.
  destruct (ptr <? len src) eqn:Hlt; cbn [andb].
  - apply Z.ltb_lt in Hlt.
    destruct (memb (getitem src ptr) whitespace) eqn:Ews.
    + destruct (IH (ptr + 1)) as [ptr' [E [R1 [R2 R3]]]]; [lia | lia |].
      exists ptr'. split; [exact E|]. split; [lia|]. split; [exact R2|].
      rewrite (skipn_getitem src ptr) by lia. cbn [automaton1 V2.truth negb andb].
      now rewrite Ews.
    + exists ptr. split; [reflexivity|]. split; [lia|]. split; [now right | reflexivity].
  - apply Z.ltb_ge in Hlt.
    exists ptr. split; [reflexivity|]. split; [lia|]. split; [now left | reflexivity].
Qed.

Lemma V1_scan_automaton1 : forall (fuel : nat) (ptr fr : Z),
  0 <= fr <= ptr -> ptr <= len src -> (Z.to_nat (len src - ptr) < fuel)%nat ->
  fr < ptr \/ len src <= ptr \/ memb (getitem src ptr) whitespace = false ->
  exists toks r, V1.scan b fuel src ptr fr ptr = Some (toks, r) /\
    match r with
    | inr e =>
      automaton1 b (Word (slice src fr ptr)) (skipn (Z.to_nat ptr) src)
      = (toks, Raise e)
    | inl ptr' =>
      ptr <= ptr' <= len src /\ (ptr < len src -> ptr < ptr') /\
      automaton1 b (Word (slice src fr ptr)) (skipn (Z.to_nat ptr) src)
      = yield_then toks (automaton1 b (Word []) (skipn (Z.to_nat ptr') src))
    end.
Proof.
  induction fuel as [|fuel IH]; intros ptr fr Hfr Hp Hf Hpre; [lia|].
  cbn [V1.scan]. cbv zeta.
  assert (Pend : (if ptr >? fr then [slice src fr ptr] else [])
                 = pending (slice src fr ptr)).
  { unfold pending. now rewrite truth_slice by lia. }
  rewrite Pend.
  destruct (ptr <? len src) eqn:Hlt.
  - apply Z.ltb_lt in Hlt.
    rewrite (skipn_getitem src ptr) by lia.
    set (c := getitem src ptr) in *. cbn [automaton1].
    rewrite char_is_open_square, char_is_double_quote, bytearray_append_char.
    assert (Skip : negb (V2.truth (slice src fr ptr)) && memb c whitespace = false).
    { rewrite truth_slice by lia.
      destruct Hpre as [T|[T|T]]; [|lia|rewrite T; apply andb_false_r].
      now replace (ptr >? fr) with true by lia. }
    rewrite Skip.
    destruct (WC_at b (to_char b (ord c))) eqn:Ewc.
    { destruct (IH (ptr + 1) fr) as [toks [r [E R]]];
        [lia | lia | lia | left; lia |].
      exists toks, r. split; [exact E|]. rewrite <- slice_snoc by lia.
      destruct r as [ptr'|e]; [|exact R].
      destruct R as [R1 [R2 R3]]. repeat split; try lia. exact R3. }
    destruct (Byte.eqb c OPEN_SQUARE_CHR) eqn:Eos.
    { pose proof (automaton1_bracket_find (slice src fr ptr ++ [c]) (ptr + 1)
                    ltac:(lia)) as B.
      pose proof (find_range src CLOSE_SQUARE_CHR (ptr + 1) ltac:(lia)) as F.
      simpl in B.
      destruct (find src CLOSE_SQUARE_CHR (ptr + 1) =? -1) eqn:Eind.
      - exists [], (inr (ValueError (no_closing CLOSE_SQUARE_CHR))).
        split; [reflexivity | exact B].
      - set (ind := find src CLOSE_SQUARE_CHR (ptr + 1)) in *.
        destruct (IH (ind + 1) fr) as [toks [r [E R]]];
          [lia | lia | lia | left; lia |].
        exists toks, r. split; [exact E|]. rewrite B.
        rewrite <- slice_snoc, <- slice_app by lia.
        destruct r as [ptr'|e]; [|exact R].
        destruct R as [R1 [R2 R3]]. repeat split; try lia. exact R3. }
    destruct (WS_at b (to_char b (ord c))) eqn:Ews.
    { exists [slice src fr ptr], (inl (ptr + 1)). split; [reflexivity|].
      repeat split; lia. }
    destruct (Byte.eqb c DOUBLE_QUOTE_CHR) eqn:Edq.
    { rewrite truth_slice by lia. destruct (ptr >? fr) eqn:T.
      - exists [], (inr (ValueError String.EmptyString)). split; reflexivity.
      - rewrite (escaped_fits b c) by (rewrite Edq; apply orb_true_r). cbn [app].
        destruct (V1_quote_loop_automaton1 (S (length src)) (ptr + 1) [c])
          as [r [E R]]; [lia | unfold len; lia |].
        rewrite E. destruct r as [[ptr' token']|e].
        + exists [token'], (inl ptr'). split; [reflexivity|].
          destruct R as [R1 R2]. repeat split; try lia. exact R2.
        + exists [], (inr e). split; [reflexivity | exact R]. }
    exists (pending (slice src fr ptr) ++ [[c]]), (inl (ptr + 1)).
    split; [reflexivity|]. repeat split; lia.
  - apply Z.ltb_ge in Hlt. rewrite (skipn_end src ptr) by lia.
    exists (pending (slice src fr ptr)), (inl ptr). split; [reflexivity|].
    repeat split; try lia.
    rewrite (skipn_end src ptr) by lia. simpl. now rewrite yield_then_nil.
Qed.

Lemma V1_tokens_from_automaton1 : forall (fuel : nat) (ptr : Z),
  0 <= ptr <= len src -> (Z.to_nat (len src - ptr) < fuel)%nat ->
  V1.tokens_from b fuel src ptr
  = Some (automaton1 b (Word []) (skipn (Z.to_nat ptr) src)).
Proof.
  induction fuel as [|fuel IH]; intros ptr Hp Hf; [lia|].
  cbn [V1.tokens_from].
  destruct (ptr <? len src) eqn:Hlt.
  - apply Z.ltb_lt in Hlt.
    destruct (V1_skip_whitespace_automaton1 (S (length src)) ptr)
      as [ptr1 [E1 [R1 [R2 R3]]]]; [lia | unfold len; lia |].
    rewrite E1, R3.
    destruct (V1_scan_automaton1 (S (length src)) ptr1 ptr1)
      as [toks [r [E2 R]]]; [lia | lia | unfold len; lia | now right |].
    rewrite slice_empty in R.
    rewrite E2. destruct r as [ptr2|e].
    + destruct R as [R4 [R5 R6]].
      rewrite IH by lia. now rewrite R6.
    + now rewrite R.
  - apply Z.ltb_ge in Hlt. now rewrite (skipn_end src ptr) by lia.
Qed.

End V1Automaton.

Lemma V1_read_token_stream_automaton1 (b : build) (src_text : bytes) :
  V1.read_token_stream b src_text = Some (automaton1 b (Word []) src_text).
Proof.
  unfold V1.read_token_stream.
  rewrite V1_tokens_from_automaton1 by (pose proof (len_nonneg src_text); unfold len; lia).
  reflexivity.
Qed.

(** ** What the automaton does on words, brackets and quoted strings *)

Section AutomatonRuns.

Variable uq : exn.

Lemma automaton_word (w : bytes) : forall (token rest : bytes),
  forallb wordchar w = true ->
  automaton uq (Word token) (w ++ rest) = automaton uq (Word (token ++ w)) rest.
Proof.
  induction w as [|c w IH]; intros token rest H;
    cbn [app forallb automaton] in *.
  - now rewrite app_nil_r.
  - apply andb_prop in H. destruct H as [Hc Hw]. unfold wordchar in Hc.
    rewrite Hc, IH by exact Hw. now rewrite <- app_assoc.
Qed.

Lemma boundary_class (c : byte) :
  memb c whitespace = true ->
  memb c wordchars = false /\ Byte.eqb c OPEN_SQUARE_CHR = false.
Proof. apply whitespace_class. Qed.

(** A pending word ends at a boundary. *)
Lemma automaton_boundary (token rest : bytes) :
  boundary rest = true ->
  automaton uq (Word token) rest
  = yield_then (pending token) (automaton uq (Word []) rest).
Proof.
  destruct rest as [|c rest]; cbn [boundary automaton]; intro H.
  - unfold yield_then. cbn [fst snd pending V2.truth]. now rewrite app_nil_r.
  - destruct (boundary_class c H) as [W1 W2]. rewrite W1, W2, H.
    unfold pending at 2. cbn [V2.truth]. now rewrite yield_nil_then.
Qed.



(** Induction on a text two bytes at a time, as the quote loop reads
    it. *)
Lemma two_step_ind (P : bytes -> Prop) :
  P [] -> (forall c, P [c]) ->
  (forall c c' s, P s -> P (c' :: s) -> P (c :: c' :: s)) ->
  forall s, P s.
Proof.
  intros H0 H1 H2 s.
  assert (P s /\ forall c, P (c :: s)) as [H _]; [|exact H].
  induction s as [|c s [IH1 IH2]]; split; auto.
Qed.

(** One step of the automaton inside a quoted string. *)
Lemma automaton_quote_step (token : bytes) (c : byte) (s : bytes) :
  automaton uq (Quote token) (c :: s)
  = if Byte.eqb c BACKSLASH_CHR then
      match s with
      | [] => ([], Raise UnterminatedQuote)
      | c' :: s' =>
        if is_escaped c' then automaton uq (Quote (token ++ [c'])) s'
        else automaton uq (Quote (token ++ [c])) s
      end
    else if Byte.eqb c DOUBLE_QUOTE_CHR then
      yield_then [token ++ [c]] (automaton uq (Word []) s)
    else automaton uq (Quote (token ++ [c])) s.
Proof. destruct s; reflexivity. Qed.

Lemma automaton_quoted_body (body : bytes) : forall (token rest : bytes),
  quoted_body body = true ->
  automaton uq (Quote token) (body ++ DOUBLE_QUOTE_CHR :: rest)
  = yield_then [token ++ unescape body ++ [DOUBLE_QUOTE_CHR]]
               (automaton uq (Word []) rest).
Proof.
  induction body as [| c | c c' body IH1 IH2] using two_step_ind;
    intros token rest H.
  - reflexivity.
  - cbn [quoted_body app unescape] in *. rewrite automaton_quote_step.
    destruct (Byte.eqb c BACKSLASH_CHR) eqn:Ebs; [discriminate|].
    destruct (Byte.eqb c DOUBLE_QUOTE_CHR) eqn:Edq; [discriminate|].
    rewrite automaton_quote_step. cbn. now rewrite <- app_assoc.
  - cbn [quoted_body] in H. cbn [unescape].
    change ((c :: c' :: body) ++ DOUBLE_QUOTE_CHR :: rest)
      with (c :: (c' :: body) ++ DOUBLE_QUOTE_CHR :: rest).
    rewrite automaton_quote_step.
    destruct (Byte.eqb c BACKSLASH_CHR) eqn:Ebs.
    + cbn [app]. destruct (is_escaped c') eqn:Eesc.
      * rewrite IH1 by exact H. now rewrite <- app_assoc.
      * change (c' :: body ++ DOUBLE_QUOTE_CHR :: rest)
          with ((c' :: body) ++ DOUBLE_QUOTE_CHR :: rest).
        rewrite IH2 by exact H. now rewrite <- app_assoc.
    + apply andb_prop in H. destruct H as [Hc Hb].
      apply negb_true_iff in Hc. rewrite Hc.
      rewrite IH2 by exact Hb. now rewrite <- app_assoc.
Qed.

(** One step of the automaton in any mode. *)
Lemma automaton_step (m : mode) (c : byte) (s : bytes) :
  automaton uq m (c :: s)
  = match m with
    | Word token =>
      if memb c wordchars then automaton uq (Word (token ++ [c])) s
      else if Byte.eqb c OPEN_SQUARE_CHR then automaton uq (Bracket (token ++ [c])) s
      else if memb c whitespace then
        yield_then (pending token) (automaton uq (Word []) s)
      else if Byte.eqb c DOUBLE_QUOTE_CHR then
        if V2.truth token then ([], Raise uq)
        else automaton uq (Quote [c]) s
      else yield_then (pending token ++ [[c]]) (automaton uq (Word []) s)
    | Bracket token =>
      if Byte.eqb c CLOSE_SQUARE_CHR then automaton uq (Word (token ++ [c])) s
      else automaton uq (Bracket (token ++ [c])) s
    | Quote token =>
      if Byte.eqb c BACKSLASH_CHR then
        match s with
        | [] => ([], Raise UnterminatedQuote)
        | c' :: s' =>
          if is_escaped c' then automaton uq (Quote (token ++ [c'])) s'
          else automaton uq (Quote (token ++ [c])) s
        end
      else if Byte.eqb c DOUBLE_QUOTE_CHR then
        yield_then [token ++ [c]] (automaton uq (Word []) s)
      else automaton uq (Quote (token ++ [c])) s
    end.
Proof. destruct m, s; reflexivity. Qed.

Lemma automaton_no_closing_quote (s : bytes) : forall token : bytes,
  has_closing_quote s = false ->
  automaton uq (Quote token) s = ([], Raise UnterminatedQuote).
Proof.
  induction s as [| c | c c' s IH1 IH2] using two_step_ind; intros token H.
  - reflexivity.
  - rewrite automaton_quote_step. cbn [has_closing_quote] in H.
    destruct (Byte.eqb c BACKSLASH_CHR); [reflexivity|].
    destruct (Byte.eqb c DOUBLE_QUOTE_CHR); [discriminate | reflexivity].
  - rewrite automaton_quote_step. cbn [has_closing_quote] in H.
    destruct (Byte.eqb c BACKSLASH_CHR).
    + destruct (is_escaped c'); [apply IH1 | apply IH2]; exact H.
    + destruct (Byte.eqb c DOUBLE_QUOTE_CHR); [discriminate | apply IH2, H].
Qed.

Lemma automaton_closing_quote (s : bytes) : forall token : bytes,
  has_closing_quote s = true ->
  exists tok rest,
    automaton uq (Quote token) s
    = yield_then [tok] (automaton uq (Word []) rest).
Proof.
  induction s as [| c | c c' s IH1 IH2] using two_step_ind; intros token H.
  - discriminate.
  - rewrite automaton_quote_step. cbn [has_closing_quote] in H.
    destruct (Byte.eqb c BACKSLASH_CHR); [discriminate|].
    destruct (Byte.eqb c DOUBLE_QUOTE_CHR); [|discriminate].
    now exists (token ++ [c]), [].
  - rewrite automaton_quote_step. cbn [has_closing_quote] in H.
    destruct (Byte.eqb c BACKSLASH_CHR).
    + destruct (is_escaped c'); [apply IH1 | apply IH2]; exact H.
    + destruct (Byte.eqb c DOUBLE_QUOTE_CHR); [|apply IH2, H].
      now exists (token ++ [c]), (c' :: s).
Qed.




Lemma automaton_leading_quote (s : bytes) :
  automaton uq (Word []) (DOUBLE_QUOTE_CHR :: s)
  = automaton uq (Quote [DOUBLE_QUOTE_CHR]) s.
Proof. rewrite automaton_step. reflexivity. Qed.

End AutomatonRuns.

(** ** The first revision on texts that fit the [char]

    On a text whose bytes all fit the [char] of the build, the walk of
    the first revision is the walk of [automaton]. *)

Lemma automaton1_step (b : build) (m : mode) (c : byte) (s : bytes) :
  automaton1 b m (c :: s)
  = match m with
    | Word token =>
      if negb (V2.truth token) && memb c whitespace then automaton1 b (Word []) s
      else if WC_at b (to_char b (ord c)) then automaton1 b (Word (token ++ [c])) s
      else if Byte.eqb c OPEN_SQUARE_CHR then automaton1 b (Bracket (token ++ [c])) s
      else if WS_at b (to_char b (ord c)) then
        yield_then [token] (automaton1 b (Word []) s)
      else if Byte.eqb c DOUBLE_QUOTE_CHR then
        if V2.truth token then ([], Raise V1_UnexpectedQuote)
        else automaton1 b (Quote [c]) s
      else yield_then (pending token ++ [[c]]) (automaton1 b (Word []) s)
    | Bracket token =>
      if Byte.eqb c CLOSE_SQUARE_CHR then automaton1 b (Word (token ++ [c])) s
      else automaton1 b (Bracket (token ++ [c])) s
    | Quote token =>
      if negb (fits b c) then ([], Raise ByteRange)
      else if Byte.eqb c BACKSLASH_CHR then
        match s with
        | [] => ([], Raise UnterminatedQuote)
        | c' :: s' =>
          if is_escaped c' then automaton1 b (Quote (token ++ [c'])) s'
          else automaton1 b (Quote (token ++ [c])) s
        end
      else if Byte.eqb c DOUBLE_QUOTE_CHR then
        yield_then [token ++ [c]] (automaton1 b (Word []) s)
      else automaton1 b (Quote (token ++ [c])) s
    end.
Proof. destruct m, s; reflexivity. Qed.

Lemma fit_cons (b : build) (c : byte) (s : bytes) :
  fit b (c :: s) = true <-> fits b c = true /\ fit b s = true.
Proof. unfold fit. cbn [forallb]. apply andb_true_iff. Qed.

Lemma fit_cons_eq (b : build) (c : byte) (s : bytes) :
  fit b (c :: s) = fits b c && fit b s.
Proof. reflexivity. Qed.

Lemma fit_nil (b : build) : fit b [] = true.
Proof. reflexivity. Qed.

(** A text made of pieces that fit does. *)
Ltac split_fit :=
  repeat match goal with
  | H : fit _ (quoted _) = true |- _ => unfold quoted in H
  | H : fit _ (_ ++ _) = true |- _ => rewrite fit_app in H
  | H : fit _ (_ :: _) = true |- _ => rewrite fit_cons_eq in H
  | H : _ && _ = true |- _ => apply andb_prop in H; destruct H
  end.

Ltac solve_fit :=
  split_fit; unfold quoted;
  repeat (rewrite ?fit_app, ?fit_cons_eq, ?fit_nil);
  repeat match goal with H : fit _ _ = true |- _ => rewrite H end;
  repeat match goal with H : fits _ _ = true |- _ => rewrite H end;
  vm_compute; reflexivity.

Lemma automaton1_fit (b : build) (s : bytes) : forall m : mode,
  fit b s = true -> automaton1 b m s = automaton V1_UnexpectedQuote m s.
Proof.
  assert (Step : forall (c : byte) (t : bytes),
    fits b c = true ->
    (forall m, automaton1 b m t = automaton V1_UnexpectedQuote m t) ->
    (forall c' t' m, t = c' :: t' ->
       automaton1 b m t' = automaton V1_UnexpectedQuote m t') ->
    forall m, automaton1 b m (c :: t) = automaton V1_UnexpectedQuote m (c :: t)).
  { clear s. intros c s F IH2 IH1 m.
    rewrite automaton1_step, automaton_step.
    destruct m as [token|token|token].
    - rewrite WC_at_fits, WS_at_fits by exact F.
      destruct (memb c whitespace) eqn:W.
      + destruct (whitespace_class c W) as [W1 W2]. rewrite W1, W2.
        destruct token; cbn [V2.truth negb andb pending];
          rewrite ?yield_nil_then, IH2; reflexivity.
      + rewrite andb_false_r. split_tests; rewrite ?IH2; reflexivity.
    - split_tests; apply IH2.
    - rewrite F. cbn [negb].
      destruct (Byte.eqb c BACKSLASH_CHR).
      + destruct s as [|c' s']; [reflexivity|].
        destruct (is_escaped c'); [now apply (IH1 c' s') | apply IH2].
      + split_tests; rewrite ?IH2; reflexivity. }
  induction s as [| c | c c' s IH1 IH2] using two_step_ind; intros m F.
  - destruct m; reflexivity.
  - apply fit_cons in F. destruct F as [F _]. apply Step; [exact F | |].
    + intro m'. destruct m'; reflexivity.
    + intros c' s' m' E. discriminate E.
  - apply fit_cons in F. destruct F as [F F2]. apply Step; [exact F | |].
    + intro m'. now apply IH2.
    + intros c0 s0 m' E. injection E as <- <-. apply IH1.
      apply fit_cons in F2. apply F2.
Qed.

Lemma V1_read_token_stream_automaton (b : build) (src_text : bytes) :
  fit b src_text = true ->
  V1.read_token_stream b src_text
  = Some (automaton V1_UnexpectedQuote (Word []) src_text).
Proof.
  intro F. rewrite V1_read_token_stream_automaton1. now rewrite automaton1_fit.
Qed.

(** ** The two revisions side by side *)

Lemma same_trace_yield (toks : list bytes) (t1 t2 : trace) :
  same_trace t1 t2 -> same_trace (yield_then toks t1) (yield_then toks t2).
Proof.
  intros [H1 H2]. split; cbn [yield_then fst snd]; [now rewrite H1 | exact H2].
Qed.

Lemma same_trace_raise (e1 e2 : exn) : same_trace ([], Raise e1) ([], Raise e2).
Proof. split; [reflexivity|]. cbn. split; discriminate. Qed.

Lemma same_trace_refl (t : trace) : same_trace t t.
Proof. split; [reflexivity | tauto]. Qed.

(** The exception for a quote inside a word does not change the tokens,
    nor whether the walk ends with an exception. *)
Lemma automaton_same (uq1 uq2 : exn) (s : bytes) : forall m : mode,
  same_trace (automaton uq1 m s) (automaton uq2 m s).
Proof.
  assert (H0 : forall m, same_trace (automaton uq1 m []) (automaton uq2 m [])).
  { intros [token|token|token]; apply same_trace_refl. }
  induction s as [| c | c c' s IH1 IH2] using two_step_ind; intro m.
  - apply H0.
  - rewrite (automaton_step uq1 m c), (automaton_step uq2 m c).
    destruct m; split_tests; try apply same_trace_yield; try apply H0; try apply same_trace_raise.
  - rewrite (automaton_step uq1 m c), (automaton_step uq2 m c).
    destruct m; split_tests; try apply same_trace_yield; try apply IH1; try apply IH2;
      try apply same_trace_raise.
Qed.

Lemma read_token_stream_same (b : build) (src_text : bytes) :
  fit b src_text = true ->
  exists t1 t2,
    V1.read_token_stream b src_text = Some t1 /\
    V2.read_token_stream src_text = Some t2 /\ same_trace t1 t2.
Proof.
  intro F. eexists. eexists.
  split; [apply V1_read_token_stream_automaton, F|].
  split; [apply V2_read_token_stream_automaton|].
  apply automaton_same.
Qed.

Section TwoLexers.

Variables rts1 rts2 : bytes -> option trace.
Variable ok : bytes -> Prop.
Hypothesis rts_same : forall src_text, ok src_text ->
  exists t1 t2, rts1 src_text = Some t1 /\ rts2 src_text = Some t2 /\ same_trace t1 t2.

Lemma init_src_text (chunk : ResponseRecord) (source : LiteralHandlingIter) :
  LiteralHandlingIter_init chunk = inl source -> src_text source = record_text chunk.
Proof.
  destruct chunk as [line|str_with_lit lit]; cbn.
  - intro E. now injection E as <-.
  - destruct (assert_imap_protocol _ _); [discriminate|].
    intro E. now injection E as <-.
Qed.

Lemma for_source_same (srcs : list ResponseRecord) :
  Forall (fun chunk => ok (record_text chunk)) srcs ->
  forall cur, same_step (for_source rts1 srcs cur) (for_source rts2 srcs cur).
Proof.
  induction srcs as [|chunk srcs IH]; intros F cur; cbn [for_source].
  - repeat split.
  - inversion F as [|x l Fc Fs]; subst.
    destruct (LiteralHandlingIter_init chunk) as [source|e] eqn:Ei; [|repeat split].
    rewrite <- (init_src_text chunk source Ei) in Fc.
    destruct (rts_same (src_text source) Fc) as [[toks1 e1] [[toks2 e2] [E1 [E2 [T1 T2]]]]].
    rewrite E1, E2. cbn [fst snd] in T1, T2. subst toks2.
    destruct toks1 as [|tok toks].
    + destruct e1 as [|x1], e2 as [|x2].
      * now apply IH.
      * exfalso. assert (Raise x2 = Return) by (now apply T2). discriminate.
      * exfalso. assert (Raise x1 = Return) by (now apply T2). discriminate.
      * repeat split.
    + repeat split; cbn; tauto.
Qed.

Lemma next_same (ts1 ts2 : TokenSource) :
  Forall (fun chunk => ok (record_text chunk)) (sources (lex ts1)) ->
  same_source ts1 ts2 -> same_step (next rts1 ts1) (next rts2 ts2).
Proof.
  destruct ts1 as [lex1 g1], ts2 as [lex2 g2]. intros F [L G].
  cbn [lex src] in *. subst lex2. unfold next. cbn [lex src].
  destruct g1 as [|[toks1 e1]|], g2 as [|[toks2 e2]|]; cbn in G; try contradiction.
  - now apply for_source_same.
  - destruct G as [T1 T2]. cbn [fst snd] in T1, T2. subst toks2.
    destruct toks1 as [|tok toks].
    + destruct e1 as [|x1], e2 as [|x2].
      * now apply for_source_same.
      * exfalso. assert (Raise x2 = Return) by (now apply T2). discriminate.
      * exfalso. assert (Raise x1 = Return) by (now apply T2). discriminate.
      * repeat split.
    + repeat split; cbn; tauto.
  - repeat split.
Qed.

(** A pull leaves a lexer with sources it had before. *)
Lemma for_source_sources (P : ResponseRecord -> Prop) (srcs : list ResponseRecord) :
  Forall P srcs ->
  forall cur p ts, for_source rts1 srcs cur = Some (p, ts) -> Forall P (sources (lex ts)).
Proof.
  induction srcs as [|chunk srcs IH]; intros F cur p ts; cbn [for_source].
  - intro E. injection E as <- <-. constructor.
  - inversion F as [|x l Fc Fs]; subst.
    destruct (LiteralHandlingIter_init chunk) as [source|e].
    + destruct (rts1 (src_text source)) as [[[|tok toks] [|x]]|]; try discriminate;
        try (intro E; injection E as <- <-; exact Fs).
      now apply IH.
    + intro E. injection E as <- <-. exact Fs.
Qed.

Lemma next_sources (P : ResponseRecord -> Prop) (ts : TokenSource) :
  Forall P (sources (lex ts)) ->
  forall p ts', next rts1 ts = Some (p, ts') -> Forall P (sources (lex ts')).
Proof.
  intros F p ts'. unfold next.
  destruct (src ts) as [|[[|tok toks] [|x]]|];
    try (intro E; injection E as <- <-; exact F);
    now apply for_source_sources.
Qed.

Lemma pulls_same (n : nat) : forall ts1 ts2,
  Forall (fun chunk => ok (record_text chunk)) (sources (lex ts1)) ->
  same_source ts1 ts2 ->
  exists ps1 ts1' ps2 ts2',
    pulls rts1 n ts1 = Some (ps1, ts1') /\
    pulls rts2 n ts2 = Some (ps2, ts2') /\
    Forall2 same_pull ps1 ps2 /\ same_source ts1' ts2'.
Proof.
  induction n as [|n IH]; intros ts1 ts2 F S; cbn [pulls].
  - exists [], ts1, [], ts2. repeat split; try constructor; apply S.
  - pose proof (next_same ts1 ts2 F S) as N. unfold same_step in N.
    pose proof (next_sources _ ts1 F) as F'.
    destruct (next rts1 ts1) as [[p1 ts1']|]; [|contradiction].
    destruct (next rts2 ts2) as [[p2 ts2']|]; [|contradiction].
    destruct N as [P S'].
    destruct (IH ts1' ts2' (F' _ _ eq_refl) S') as [ps1 [u1 [ps2 [u2 [E1 [E2 [F2 S'']]]]]]].
    rewrite E1, E2. exists (p1 :: ps1), u1, (p2 :: ps2), u2.
    repeat split; try constructor; try assumption; apply S''.
Qed.

End TwoLexers.

(** ** The current source of a lexer *)

Section OneLexer.

Variable rts : bytes -> option trace.
Hypothesis rts_total : forall src_text, exists t, rts src_text = Some t.
Variable text : list ResponseRecord.

Lemma for_source_current (srcs : list ResponseRecord) :
  forall cur,
  (forall chunk, In chunk srcs -> In chunk text) ->
  (forall source, cur = Some source ->
     exists chunk, In chunk text /\ LiteralHandlingIter_init chunk = inl source) ->
  exists p ts, for_source rts srcs cur = Some (p, ts) /\ from_text text ts /\
    (cur <> None -> started ts) /\
    (begins srcs = true -> started ts) /\
    (cur = None -> begins srcs = false ->
       current_source (lex ts) = None /\ src ts = Finished).
Proof.
  induction srcs as [|chunk srcs IH]; intros cur Hs Hc; cbn [for_source].
  - eexists. eexists. split; [reflexivity|]. unfold from_text, started. cbn.
    repeat split; try tauto; try discriminate; try exact Hc.
  - assert (Hs' : forall c, In c srcs -> In c text) by (intros; apply Hs; now right).
    cbn [begins].
    destruct (LiteralHandlingIter_init chunk) as [source|e] eqn:Ei.
    + assert (Hc' : forall s0, Some source = Some s0 ->
                exists c, In c text /\ LiteralHandlingIter_init c = inl s0).
      { intros s0 E. injection E as <-. exists chunk. split; [apply Hs; now left | exact Ei]. }
      destruct (rts_total (src_text source)) as [[toks fin] E]. rewrite E.
      destruct toks as [|tok toks]; [destruct fin as [|e]|].
      * destruct (IH (Some source) Hs' Hc') as [p [ts [E1 [F [S1 _]]]]].
        exists p, ts. split; [exact E1|]. split; [exact F|].
        repeat split; intros; try discriminate; apply S1; discriminate.
      * eexists. eexists. split; [reflexivity|]. unfold from_text, started. cbn.
        repeat split; intros; try discriminate; auto.
      * eexists. eexists. split; [reflexivity|]. unfold from_text, started. cbn.
        repeat split; intros; try discriminate; auto.
    + eexists. eexists. split; [reflexivity|]. unfold from_text, started. cbn.
      repeat split; intros; try discriminate; try tauto; auto.
Qed.

Lemma next_current (ts : TokenSource) :
  from_text text ts ->
  exists p ts', next rts ts = Some (p, ts') /\ from_text text ts' /\
    (started ts -> started ts') /\
    (src ts = Finished -> ts' = ts).
Proof.
  intros [F1 F2]. unfold next.
  destruct ts as [lexer g]. cbn [lex src] in *.
  destruct g as [|[toks fin]|].
  - destruct (for_source_current (sources lexer) (current_source lexer) F1 F2)
      as [p [ts' [E [F [S1 _]]]]].
    exists p, ts'. repeat split; try apply F; try discriminate. exact E. exact S1.
  - destruct toks as [|tok toks]; [destruct fin as [|e]|].
    + destruct (for_source_current (sources lexer) (current_source lexer) F1 F2)
        as [p [ts' [E [F [S1 _]]]]].
      exists p, ts'. repeat split; try apply F; try discriminate. exact E. exact S1.
    + eexists. eexists. split; [reflexivity|].
      repeat split; try discriminate; auto.
    + eexists. eexists. split; [reflexivity|].
      repeat split; try discriminate; auto.
  - eexists. eexists. split; [reflexivity|].
    repeat split; auto.
Qed.

Lemma pulls_started (n : nat) : forall ts,
  from_text text ts -> started ts ->
  exists ps ts', pulls rts n ts = Some (ps, ts') /\ from_text text ts' /\ started ts'.
Proof.
  induction n as [|n IH]; intros ts F S; cbn [pulls].
  - now exists [], ts.
  - destruct (next_current ts F) as [p [ts' [E [F' [S' _]]]]]. rewrite E.
    destruct (IH ts' F' (S' S)) as [ps [ts'' [E' R]]]. rewrite E'.
    now exists (p :: ps), ts''.
Qed.

Lemma pulls_finished (n : nat) : forall ts,
  from_text text ts -> src ts = Finished ->
  exists ps, pulls rts n ts = Some (ps, ts).
Proof.
  induction n as [|n IH]; intros ts F S; cbn [pulls].
  - now exists [].
  - destruct (next_current ts F) as [p [ts' [E [_ [_ Same]]]]]. rewrite E.
    rewrite (Same S). destruct (IH ts F S) as [ps E']. rewrite E'.
    now exists (p :: ps).
Qed.

Lemma started_literal (ts : TokenSource) :
  from_text text ts -> started ts -> literal_of_record text ts.
Proof.
  intros [_ F] S. unfold started in S. unfold literal_of_record, current_literal.
  destruct (current_source (lex ts)) as [source|] eqn:E; [|contradiction].
  destruct (F source eq_refl) as [chunk [I Ei]].
  now exists chunk, source.
Qed.

(** After [n] pulls on a fresh token source: a record of [text] is
    current once a first pull has begun the first record; no record is
    current, and the query is an [AttributeError], before the first pull
    and when the first record cannot be begun. *)
Lemma current_literal_after_pulls (n : nat) :
  exists ps ts,
    pulls rts n (TokenSource_init text) = Some (ps, ts) /\
    if (0 <? n)%nat && begins text then literal_of_record text ts
    else current_literal ts = inr AttributeError.
Proof.
  assert (F0 : from_text text (TokenSource_init text)).
  { split; cbn; [auto | discriminate]. }
  destruct n as [|n].
  - exists [], (TokenSource_init text). split; reflexivity.
  - cbn [pulls Nat.ltb Nat.leb andb].
    unfold next. cbn [TokenSource_init Lexer_init lex src sources current_source].
    destruct (for_source_current text None (fun _ H => H) ltac:(discriminate))
      as [p [ts [E [F [_ [S1 S2]]]]]].
    rewrite E. destruct (begins text) eqn:B.
    + destruct (pulls_started n ts F (S1 eq_refl)) as [ps [ts' [E' [F' S']]]].
      rewrite E'. exists (p :: ps), ts'. split; [reflexivity|].
      now apply started_literal.
    + destruct (S2 eq_refl eq_refl) as [C Fin].
      destruct (pulls_finished n ts F Fin) as [ps E']. rewrite E'.
      exists (p :: ps), ts. split; [reflexivity|].
      unfold current_literal. now rewrite C.
Qed.

End OneLexer.

(** ** The tokenizer returns *)

Lemma read_token_stream_total (b : build) (src_text : bytes) :
  (exists t, V1.read_token_stream b src_text = Some t) /\
  (exists t, V2.read_token_stream src_text = Some t).
Proof.
  split; eexists;
    [apply V1_read_token_stream_automaton1 | apply V2_read_token_stream_automaton].
Qed.

(** ** Texts that read back as themselves *)

Lemma unescape_cons (c : byte) (s : bytes) :
  unescape (c :: s)
  = if Byte.eqb c BACKSLASH_CHR then
      match s with
      | [] => [c]
      | c' :: s' => if is_escaped c' then c' :: unescape s' else c :: unescape s
      end
    else c :: unescape s.
Proof. destruct s; reflexivity. Qed.

Lemma quoted_body_cons (c : byte) (s : bytes) :
  quoted_body (c :: s)
  = if Byte.eqb c BACKSLASH_CHR then
      match s with
      | [] => false
      | c' :: s' => if is_escaped c' then quoted_body s' else quoted_body s
      end
    else negb (Byte.eqb c DOUBLE_QUOTE_CHR) && quoted_body s.
Proof. destruct s; reflexivity. Qed.

Lemma has_closing_quote_cons (c : byte) (s : bytes) :
  has_closing_quote (c :: s)
  = if Byte.eqb c BACKSLASH_CHR then
      match s with
      | [] => false
      | c' :: s' => if is_escaped c' then has_closing_quote s' else has_closing_quote s
      end
    else if Byte.eqb c DOUBLE_QUOTE_CHR then true
    else has_closing_quote s.
Proof. destruct s; reflexivity. Qed.

Lemma verbatim_cons (c : byte) (s : bytes) :
  verbatim (c :: s)
  = if Byte.eqb c BACKSLASH_CHR then
      match s with
      | [] => false
      | c' :: _ => negb (is_escaped c') && verbatim s
      end
    else negb (Byte.eqb c DOUBLE_QUOTE_CHR) && verbatim s.
Proof. reflexivity. Qed.

Lemma verbatim_quoted_body (body : bytes) :
  verbatim body = true -> quoted_body body = true /\ unescape body = body.
Proof.
  induction body as [|c body IH]; intro H.
  - split; reflexivity.
  - rewrite verbatim_cons in H. rewrite quoted_body_cons, unescape_cons.
    destruct (Byte.eqb c BACKSLASH_CHR).
    + destruct body as [|c' body]; [discriminate|].
      apply andb_prop in H. destruct H as [He Hv].
      apply negb_true_iff in He. rewrite He.
      destruct (IH Hv) as [Q U]. split; [exact Q | now rewrite U].
    + apply andb_prop in H. destruct H as [Hc Hv]. rewrite Hc.
      destruct (IH Hv) as [Q U]. split; [exact Q | now rewrite U].
Qed.

Section Retokenize.

Variable uq : exn.

Lemma automaton_atom (t : bytes) :
  atom t = true -> automaton uq (Word []) t = ([t], Return).
Proof.
  unfold atom. intro H. apply andb_prop in H. destruct H as [T W].
  rewrite <- (app_nil_r t) at 1. rewrite automaton_word by exact W.
  cbn [app automaton]. unfold pending. now rewrite T.
Qed.

Lemma automaton_quoted (body rest : bytes) :
  quoted_body body = true ->
  automaton uq (Word []) (quoted body ++ rest)
  = yield_then [quoted (unescape body)] (automaton uq (Word []) rest).
Proof.
  intro H. unfold quoted. cbn [app]. rewrite <- app_assoc. cbn [app].
  rewrite automaton_step.
  replace (memb DOUBLE_QUOTE_CHR wordchars) with false by reflexivity.
  replace (memb DOUBLE_QUOTE_CHR whitespace) with false by reflexivity.
  cbn. now rewrite automaton_quoted_body.
Qed.

Lemma automaton_verbatim (body : bytes) :
  verbatim body = true ->
  automaton uq (Word []) (quoted body) = ([quoted body], Return).
Proof.
  intro H. destruct (verbatim_quoted_body body H) as [Q U].
  rewrite <- (app_nil_r (quoted body)) at 1.
  rewrite automaton_quoted by exact Q. now rewrite U.
Qed.

(** A token that the quote loop yields is no longer than the token so
    far and the text read. *)
Lemma automaton_quote_length (s : bytes) : forall (token tok : bytes) toks e,
  automaton uq (Quote token) s = (tok :: toks, e) ->
  (length tok <= length token + length s)%nat.
Proof.
  induction s as [| c | c c' s IH1 IH2] using two_step_ind;
    intros token tok toks e; rewrite ?automaton_quote_step.
  - discriminate.
  - destruct (Byte.eqb c BACKSLASH_CHR); [discriminate|].
    destruct (Byte.eqb c DOUBLE_QUOTE_CHR); [|discriminate].
    intro H. injection H as <- _ _. rewrite length_app. cbn [length]. lia.
  - destruct (Byte.eqb c BACKSLASH_CHR).
    + destruct (is_escaped c'); intro H;
        [apply IH1 in H | apply IH2 in H];
        rewrite length_app in H; cbn [length] in *; lia.
    + destruct (Byte.eqb c DOUBLE_QUOTE_CHR); intro H.
      * unfold yield_then in H. cbn [app fst] in H.
        injection H as <- _ _. rewrite length_app. cbn [length]. lia.
      * apply IH2 in H. rewrite length_app in H. cbn [length] in *. lia.
Qed.

(** A body that is not [verbatim] does not read back as itself. *)
Lemma automaton_not_verbatim (body : bytes) : forall token : bytes,
  verbatim body = false ->
  fst (automaton uq (Quote token) (body ++ [DOUBLE_QUOTE_CHR]))
  <> [token ++ body ++ [DOUBLE_QUOTE_CHR]].
Proof.
  induction body as [|c body IH]; intros token V; [discriminate|].
  rewrite verbatim_cons in V. cbn [app]. rewrite automaton_quote_step.
  destruct (Byte.eqb c BACKSLASH_CHR).
  - destruct body as [|c' body]; cbn [app].
    + replace (is_escaped DOUBLE_QUOTE_CHR) with true by reflexivity. discriminate.
    + destruct (is_escaped c').
      * destruct (automaton uq (Quote (token ++ [c'])) (body ++ [DOUBLE_QUOTE_CHR]))
          as [[|tok toks] e] eqn:A; [discriminate|].
        apply automaton_quote_length in A. cbn [fst]. intro E.
        injection E as E _. subst tok.
        rewrite !length_app in A. cbn [length] in A.
        rewrite length_app in A. cbn [length] in A. lia.
      * cbn [negb andb] in V. specialize (IH (token ++ [c]) V).
        now rewrite <- app_assoc in IH.
  - destruct (Byte.eqb c DOUBLE_QUOTE_CHR).
    + unfold yield_then. cbn [app fst]. intro E. injection E as E _.
      apply (f_equal (@length byte)) in E.
      rewrite !length_app in E. cbn [length] in E.
      rewrite length_app in E. cbn [length] in E. lia.
    + cbn [negb andb] in V. specialize (IH (token ++ [c]) V).
      now rewrite <- app_assoc in IH.
Qed.

Lemma automaton_quoted_iff (body : bytes) :
  automaton uq (Word []) (quoted body) = ([quoted body], Return)
  <-> verbatim body = true.
Proof.
  split; [|apply automaton_verbatim].
  intro A. destruct (verbatim body) eqn:V; [reflexivity|].
  unfold quoted in A. rewrite automaton_leading_quote in A.
  apply (automaton_not_verbatim body [DOUBLE_QUOTE_CHR]) in V.
  now rewrite A in V.
Qed.

End Retokenize.

(** C1, as amended.  An atom reads back as itself: tokenizing its bytes
    as a text of their own yields that one token and returns.  A quoted
    string does so exactly when its body holds no double quote and no
    backslash that stands last or before another backslash or a double
    quote ([verbatim]).  The second revision on every text, the first
    on every build for a text that fits its [char]. *)
Theorem C1_retokenize (b : build) :
  (forall t : bytes,
     atom t = true ->
     (fit b t = true -> V1.read_token_stream b t = Some ([t], Return)) /\
     V2.read_token_stream t = Some ([t], Return)) /\
  (forall body : bytes,
     (fit b body = true ->
      (V1.read_token_stream b (quoted body) = Some ([quoted body], Return)
       <-> verbatim body = true)) /\
     (V2.read_token_stream (quoted body) = Some ([quoted body], Return)
      <-> verbatim body = true)).
Proof.
  split.
  - intros t A. split; [intro F; rewrite V1_read_token_stream_automaton by exact F
                       | rewrite V2_read_token_stream_automaton];
      now rewrite automaton_atom.
  - intro body.
    split; [intro F; rewrite V1_read_token_stream_automaton by solve_fit
           | rewrite V2_read_token_stream_automaton];
      (split; [intro A; injection A as A; now apply automaton_quoted_iff in A
              | intro V; f_equal; now apply automaton_quoted_iff]).
Qed.

Lemma C1_retokenize_witness :
  (V1.read_token_stream signed_build (b' "FETCH") = Some ([b' "FETCH"], Return) /\
   V2.read_token_stream (b' "FETCH") = Some ([b' "FETCH"], Return)) /\
  V1.read_token_stream signed_build (quoted (b' "a b"))
  = Some ([quoted (b' "a b")], Return).
Proof.
  split; [split|].
  - apply (proj1 (C1_retokenize signed_build) (b' "FETCH")); reflexivity.
  - apply (proj1 (C1_retokenize signed_build) (b' "FETCH")); reflexivity.
  - apply (proj1 (proj2 (C1_retokenize signed_build) (b' "a b"))); reflexivity.
Defined.

(** C1 fails as stated: the quoted string with two escapes yields one
    token, a quoted string; tokenizing that token yields its first two
    quotes with what is between them, and then raises for the quote
    inside the word that follows. *)
Lemma C1_counterexample :
  V1.read_token_stream signed_build escaped_input = Some ([escaped_token], Return) /\
  V1.read_token_stream unsigned_build escaped_input = Some ([escaped_token], Return) /\
  V2.read_token_stream escaped_input = Some ([escaped_token], Return) /\
  (exists body, escaped_token = quoted body) /\
  V1.read_token_stream signed_build escaped_token
  = Some ([quoted (b' "ab")], Raise V1_UnexpectedQuote) /\
  V1.read_token_stream unsigned_build escaped_token
  = Some ([quoted (b' "ab")], Raise V1_UnexpectedQuote) /\
  V2.read_token_stream escaped_token
  = Some ([quoted (b' "ab")], Raise V2_UnexpectedQuote).
Proof.
  repeat split; try reflexivity.
  eexists. reflexivity.
Qed.

(** ** Literals *)

(** C2.  Over the record with the text [a1 FETCH {5}] and the literal
    [hello] followed by the plain record [b2 OK], the pulls give the
    tokens [a1], [FETCH], [{5}], [b2], [OK] in that order and then the
    end; [current_literal] is [hello] right after [{5}] and none after
    [b2] (and after [OK]).  Both revisions, the first on every build. *)
Theorem C2_literal_association (b : build) :
  let a1 := Token (b' "a1") in
  let fetch := Token (b' "FETCH") in
  let marker := Token (b' "{5}") in
  let b2 := Token (b' "b2") in
  let ok := Token (b' "OK") in
  (observe (V1.read_token_stream b) 3 literal_records
   = Some ([a1; fetch; marker], inl (Some (b' "hello"))) /\
   observe (V1.read_token_stream b) 4 literal_records
   = Some ([a1; fetch; marker; b2], inl None) /\
   observe (V1.read_token_stream b) 6 literal_records
   = Some ([a1; fetch; marker; b2; ok; StopIteration], inl None)) /\
  (observe V2.read_token_stream 3 literal_records
   = Some ([a1; fetch; marker], inl (Some (b' "hello"))) /\
   observe V2.read_token_stream 4 literal_records
   = Some ([a1; fetch; marker; b2], inl None) /\
   observe V2.read_token_stream 6 literal_records
   = Some ([a1; fetch; marker; b2; ok; StopIteration], inl None)).
Proof. cbv zeta. repeat split; vm_compute; reflexivity. Qed.

(** C3, as amended.  After any number of pulls on a fresh token source
    ([pulls] always gives a result): once a first pull has begun the
    first record, [current_literal] gives the literal (or none) of a
    record of the sequence, also after the tokens are exhausted or an
    exception has ended them; before the first pull, and when the
    sequence is empty or its first record cannot be constructed, no
    record is current and the query is an [AttributeError]. *)
Theorem C3_current_literal (b : build) (text : list ResponseRecord) (n : nat) :
  (exists ps ts,
     pulls (V1.read_token_stream b) n (TokenSource_init text) = Some (ps, ts) /\
     if (0 <? n)%nat && begins text then literal_of_record text ts
     else current_literal ts = inr AttributeError) /\
  (exists ps ts,
     pulls V2.read_token_stream n (TokenSource_init text) = Some (ps, ts) /\
     if (0 <? n)%nat && begins text then literal_of_record text ts
     else current_literal ts = inr AttributeError).
Proof.
  split; apply current_literal_after_pulls; intro s; apply (read_token_stream_total b).
Qed.

(** C3 fails as stated: before the first pull the query does not give a
    value; after the first pull it does. *)
Lemma C3_counterexample :
  current_literal (TokenSource_init literal_records) = inr AttributeError /\
  observe (V1.read_token_stream signed_build) 0 literal_records
  = Some ([], inr AttributeError) /\
  observe (V1.read_token_stream unsigned_build) 0 literal_records
  = Some ([], inr AttributeError) /\
  observe V2.read_token_stream 0 literal_records = Some ([], inr AttributeError) /\
  observe (V1.read_token_stream signed_build) 1 literal_records
  = Some ([Token (b' "a1")], inl (Some (b' "hello"))).
Proof. repeat split; vm_compute; reflexivity. Qed.

Lemma endswith_byte (s : bytes) (c : byte) :
  endswith s [c] = true <-> exists t, s = t ++ [c].
Proof.
  unfold endswith. cbn [length]. split.
  - destruct (list_eq_dec _ _ _) as [E|E]; [|discriminate].
    intros _. exists (firstn (length s - 1) s).
    rewrite <- E. symmetry. apply firstn_skipn.
  - intros [t ->]. rewrite length_app. cbn [length].
    replace (length t + 1 - 1)%nat with (length t + 0)%nat by lia.
    rewrite skipn_app, Nat.add_0_r, skipn_all, Nat.sub_diag. cbn [skipn app].
    destruct (list_eq_dec _ _ _) as [E|E]; [|contradiction].
    apply Nat.leb_le. lia.
Qed.

(** C9.  Constructing a [LiteralHandlingIter] from a tuple whose text
    ends with the closing brace succeeds and keeps the literal; from a
    tuple whose text does not end with it, it fails with the protocol
    error that carries the text; from a plain line it succeeds, with no
    literal. *)
Theorem C9_literal_record (str_with_lit lit line : bytes) :
  ((exists t, str_with_lit = t ++ [x7d]) ->
   LiteralHandlingIter_init (WithLiteral str_with_lit lit)
   = inl {| src_text := str_with_lit; literal := Some lit |}) /\
  ((forall t, str_with_lit <> t ++ [x7d]) ->
   LiteralHandlingIter_init (WithLiteral str_with_lit lit)
   = inr (MalformedLiteralRecord str_with_lit)) /\
  LiteralHandlingIter_init (Plain line)
  = inl {| src_text := line; literal := None |}.
Proof.
  unfold LiteralHandlingIter_init, assert_imap_protocol.
  repeat split.
  - intro H. apply endswith_byte in H. now rewrite H.
  - intro H. destruct (endswith str_with_lit [x7d]) eqn:E; [|reflexivity].
    apply endswith_byte in E. destruct E as [t E]. now apply H in E.
Qed.

Lemma C9_literal_record_witness :
  LiteralHandlingIter_init (WithLiteral (b' "a1 FETCH {5}") (b' "hello"))
  = inl {| src_text := b' "a1 FETCH {5}"; literal := Some (b' "hello") |} /\
  LiteralHandlingIter_init (WithLiteral (b' "a1 FETCH") (b' "hello"))
  = inr (MalformedLiteralRecord (b' "a1 FETCH")).
Proof.
  split.
  - apply (C9_literal_record (b' "a1 FETCH {5}") (b' "hello") []).
    exists (b' "a1 FETCH {5"). reflexivity.
  - apply (C9_literal_record (b' "a1 FETCH") (b' "hello") []).
    intros t E. apply (f_equal (@rev byte)) in E. rewrite rev_app_distr in E.
    discriminate E.
Defined.

(** ** The two revisions and the [char]

    The first revision holds the ordinal of a byte in a C [char]; the
    loop that skips whitespace, four lines above, indexes by the
    ordinal itself, and the second revision compares bytes. *)

(** C4.  The two revisions do not agree on every text.  On the quoted
    string of the two bytes c3 and a9 (the UTF-8 of an e with an acute
    accent), the second revision yields the text as one token and
    returns; the first does so only where [char] is unsigned, and where
    it is signed raises the [ValueError] of [bytearray.append] for a
    byte out of range and yields nothing. *)
Theorem C4_revisions_differ (b : build) :
  V1.read_token_stream b (quoted [xc3; xa9])
  = (if char_signed b then Some ([], Raise ByteRange)
     else Some ([quoted [xc3; xa9]], Return)) /\
  V2.read_token_stream (quoted [xc3; xa9]) = Some ([quoted [xc3; xa9]], Return).
Proof.
  split; [|reflexivity].
  destruct b as [[|] ws wc]; vm_compute; reflexivity.
Qed.

(** ** Quoted strings *)









(** ** Texts in pieces *)

Lemma yield_then_assoc (a b : list bytes) (t : trace) :
  yield_then a (yield_then b t) = yield_then (a ++ b) t.
Proof. unfold yield_then. cbn [fst snd]. now rewrite app_assoc. Qed.

Lemma yield_then_snd (a : list bytes) (t : trace) : snd (yield_then a t) = snd t.
Proof. reflexivity. Qed.

Lemma yield_then_fst_app (a : list bytes) (t : trace) :
  fst (yield_then a t) = a ++ fst t.
Proof. reflexivity. Qed.

Section Pieces.

Variable uq : exn.

(** A walk that returns on [s1] goes on after a whitespace byte as a
    fresh walk. *)
Lemma automaton_return_app (s1 : bytes) : forall (m : mode) (c : byte) (s2 : bytes),
  snd (automaton uq m s1) = Return ->
  memb c whitespace = true ->
  automaton uq m (s1 ++ c :: s2)
  = yield_then (fst (automaton uq m s1)) (automaton uq (Word []) s2).
Proof.
  assert (H0 : forall m c s2,
    snd (automaton uq m []) = Return -> memb c whitespace = true ->
    automaton uq m ([] ++ c :: s2)
    = yield_then (fst (automaton uq m [])) (automaton uq (Word []) s2)).
  { intros [token|token|token] c s2 R W; try discriminate R.
    cbn [app]. rewrite automaton_step.
    destruct (whitespace_class c W) as [W1 W2]. now rewrite W1, W2, W. }
  induction s1 as [| c1 | c1 c2 s IH1 IH2] using two_step_ind; intros m c s2.
  - apply H0.
  - cbn [app].
    rewrite (automaton_step uq m c1 (c :: s2)), (automaton_step uq m c1 []).
    destruct m; split_tests; intros R W;
      rewrite ?yield_then_snd in R; try discriminate R;
      rewrite ?yield_then_fst_app, <- ?yield_then_assoc;
      first [ apply (H0 _ c s2 R W)
            | f_equal; apply (H0 _ c s2 R W)
            | do 2 f_equal; apply (H0 _ c s2 R W) ].
  - change ((c1 :: c2 :: s) ++ c :: s2) with (c1 :: (c2 :: s) ++ c :: s2).
    rewrite (automaton_step uq m c1 ((c2 :: s) ++ c :: s2)),
            (automaton_step uq m c1 (c2 :: s)).
    cbn [app].
    destruct m; split_tests; intros R W;
      rewrite ?yield_then_snd in R; try discriminate R;
      rewrite ?yield_then_fst_app, <- ?yield_then_assoc;
      first [ apply (IH2 _ c s2 R W)
            | apply (IH1 _ c s2 R W)
            | f_equal; apply (IH2 _ c s2 R W)
            | do 2 f_equal; apply (IH2 _ c s2 R W) ].
Qed.

Lemma automaton_whitespace (s : bytes) :
  forallb (fun c => memb c whitespace) s = true ->
  automaton uq (Word []) s = ([], Return).
Proof.
  induction s as [|c s IH]; intro H; [reflexivity|].
  cbn [forallb] in H. apply andb_prop in H. destruct H as [W H].
  rewrite automaton_step. destruct (whitespace_class c W) as [W1 W2].
  rewrite W1, W2, W. cbn [pending V2.truth]. rewrite yield_nil_then. now apply IH.
Qed.

Lemma automaton_punctuation (pre : bytes) (c : byte) (rest : bytes) :
  forallb wordchar pre = true -> punctuation c = true ->
  automaton uq (Word []) (pre ++ c :: rest)
  = yield_then (pending pre ++ [[c]]) (automaton uq (Word []) rest).
Proof.
  intros W P. rewrite automaton_word by exact W. cbn [app].
  rewrite automaton_step. unfold punctuation in P.
  repeat (apply andb_prop in P; destruct P as [P ?]).
  repeat match goal with H : negb _ = true |- _ => apply negb_true_iff in H; rewrite H end.
  reflexivity.
Qed.

End Pieces.

(** ** Square brackets *)

Lemma word_scan_app (t : bytes) : forall (in_bracket : bool) (c : byte),
  word_scan in_bracket (t ++ [c])
  = match word_scan in_bracket t with
    | Some b1 => word_scan b1 [c]
    | None => None
    end.
Proof.
  induction t as [|d t IH]; intros in_bracket c; [reflexivity|].
  cbn [app word_scan].
  destruct in_bracket; [apply IH|].
  destruct (memb d wordchars); [apply IH|].
  destruct (Byte.eqb d OPEN_SQUARE_CHR); [apply IH | reflexivity].
Qed.

Section Brackets.

Variable uq : exn.

Lemma automaton_word_scan (t : bytes) : forall (b1 b2 : bool) (token rest : bytes),
  word_scan b1 t = Some b2 ->
  automaton uq (word_mode b1 token) (t ++ rest)
  = automaton uq (word_mode b2 (token ++ t)) rest.
Proof.
  induction t as [|c t IH]; intros b1 b2 token rest H.
  - cbn in H. injection H as <-. now rewrite app_nil_r.
  - cbn [word_scan] in H. cbn [app]. rewrite automaton_step.
    replace (token ++ c :: t) with ((token ++ [c]) ++ t) by now rewrite <- app_assoc.
    destruct b1; cbn [word_mode].
    + destruct (Byte.eqb c CLOSE_SQUARE_CHR); cbn [negb] in H;
        [apply (IH false) | apply (IH true)]; exact H.
    + destruct (memb c wordchars); [apply (IH false), H|].
      destruct (Byte.eqb c OPEN_SQUARE_CHR); [apply (IH true), H | discriminate].
Qed.




End Brackets.



(** ** A quote inside a word *)

(** C8.  A double quote met while the pending word is not empty raises:
    in the scan loop of either revision for any pending word, hence for
    every text that starts with an atom followed by a quote, as [x]
    followed by a quoted [y]; the first revision raises a [ValueError]
    with an empty message, the second fails [assert_imap_protocol].  A
    quote at the start of a text does not raise for it: the text yields a
    first token when a closing quote follows, and fails for the missing
    closing quote when none does.  The scan loops on every text and
    build; on whole texts the second revision on every text, the first
    on a text that fits its [char]. *)
Theorem C8_unexpected_quote (b : build) :
  (forall (fuel : nat) (src : bytes) (ptr fr to : Z),
     0 <= ptr < len src -> getitem src ptr = DOUBLE_QUOTE_CHR -> to > fr ->
     V1.scan b (S fuel) src ptr fr to = Some ([], inr V1_UnexpectedQuote)) /\
  (forall (fuel : nat) (src : bytes) (ptr : Z) (token : bytes),
     0 <= ptr < len src -> getitem src ptr = DOUBLE_QUOTE_CHR -> token <> [] ->
     V2.scan (S fuel) src ptr token = Some ([], inr V2_UnexpectedQuote)) /\
  (forall pre rest : bytes,
     atom pre = true ->
     (fit b (pre ++ DOUBLE_QUOTE_CHR :: rest) = true ->
      V1.read_token_stream b (pre ++ DOUBLE_QUOTE_CHR :: rest)
      = Some ([], Raise V1_UnexpectedQuote)) /\
     V2.read_token_stream (pre ++ DOUBLE_QUOTE_CHR :: rest)
     = Some ([], Raise V2_UnexpectedQuote)) /\
  (V1.read_token_stream b (b' "x" ++ quoted (b' "y"))
   = Some ([], Raise V1_UnexpectedQuote) /\
   V2.read_token_stream (b' "x" ++ quoted (b' "y"))
   = Some ([], Raise V2_UnexpectedQuote)) /\
  (forall s : bytes,
     (fit b s = true ->
      if has_closing_quote s then
        exists tok toks e,
          V1.read_token_stream b (DOUBLE_QUOTE_CHR :: s) = Some (tok :: toks, e)
      else
        V1.read_token_stream b (DOUBLE_QUOTE_CHR :: s)
        = Some ([], Raise UnterminatedQuote)) /\
     (if has_closing_quote s then
        exists tok toks e,
          V2.read_token_stream (DOUBLE_QUOTE_CHR :: s) = Some (tok :: toks, e)
      else
        V2.read_token_stream (DOUBLE_QUOTE_CHR :: s)
        = Some ([], Raise UnterminatedQuote))).
Proof.
  assert (Top : forall uq s,
    if has_closing_quote s then
      exists tok toks e,
        Some (automaton uq (Word []) (DOUBLE_QUOTE_CHR :: s)) = Some (tok :: toks, e)
    else
      Some (automaton uq (Word []) (DOUBLE_QUOTE_CHR :: s))
      = Some ([], Raise UnterminatedQuote)).
  { intros uq s. rewrite automaton_leading_quote.
    destruct (has_closing_quote s) eqn:C.
    - destruct (automaton_closing_quote uq s [DOUBLE_QUOTE_CHR] C) as [tok [rest A]].
      rewrite A. destruct (automaton uq (Word []) rest) as [toks e].
      now exists tok, toks, e.
    - now rewrite automaton_no_closing_quote. }
  split; [|split; [|split; [|split; [split; vm_compute; reflexivity|]]]].
  - intros fuel src ptr fr to Hp Hc Hto. cbn [V1.scan]. cbv zeta. rewrite Hc.
    replace (ptr <? len src) with true by lia.
    replace (to >? fr) with true by lia.
    rewrite WC_at_fits, WS_at_fits, char_is_open_square, char_is_double_quote
      by reflexivity.
    reflexivity.
  - intros fuel src ptr token Hp Hc Ht. cbn [V2.scan]. cbv zeta. rewrite Hc.
    replace (ptr <? len src) with true by lia.
    destruct token; [contradiction | reflexivity].
  - intros pre rest A. unfold atom in A. apply andb_prop in A. destruct A as [T W].
    split; [intro F; rewrite V1_read_token_stream_automaton by exact F
           | rewrite V2_read_token_stream_automaton];
      rewrite automaton_word by exact W; cbn [app];
      rewrite automaton_step, T; reflexivity.
  - intro s.
    split; [intro F; rewrite V1_read_token_stream_automaton by solve_fit
           | rewrite V2_read_token_stream_automaton];
      apply Top.
Qed.

Lemma C8_unexpected_quote_witness :
  (V1.read_token_stream signed_build (b' "FLAGS" ++ DOUBLE_QUOTE_CHR :: b' "x")
   = Some ([], Raise V1_UnexpectedQuote) /\
   V2.read_token_stream (b' "FLAGS" ++ DOUBLE_QUOTE_CHR :: b' "x")
   = Some ([], Raise V2_UnexpectedQuote)) /\
  V1.scan signed_build 1 (b' "ab" ++ [DOUBLE_QUOTE_CHR]) 2 0 2
  = Some ([], inr V1_UnexpectedQuote) /\
  V2.scan 1 (b' "ab" ++ [DOUBLE_QUOTE_CHR]) 2 (b' "ab")
  = Some ([], inr V2_UnexpectedQuote) /\
  exists tok toks e,
    V1.read_token_stream signed_build (DOUBLE_QUOTE_CHR :: b' "a" ++ quoted (b' "b"))
    = Some (tok :: toks, e).
Proof.
  split; [split|split; [|split]].
  - apply (proj1 (proj2 (proj2 (C8_unexpected_quote signed_build))) (b' "FLAGS"));
      reflexivity.
  - apply (proj1 (proj2 (proj2 (C8_unexpected_quote signed_build))) (b' "FLAGS")).
    reflexivity.
  - apply (proj1 (C8_unexpected_quote signed_build));
      [vm_compute; split; [discriminate | reflexivity] | reflexivity | reflexivity].
  - apply (proj1 (proj2 (C8_unexpected_quote signed_build)));
      [vm_compute; split; [discriminate | reflexivity] | reflexivity | discriminate].
  - exact (proj1 (proj2 (proj2 (proj2 (proj2 (C8_unexpected_quote signed_build))))
                    (b' "a" ++ quoted (b' "b"))) eq_refl).
Defined.

(** ** No empty token *)



(** * Further properties of the tokenizer *)

(** ** The classes of bytes *)

(** X1.  The tables of the first revision and the sets of the second
    class every byte alike.  A byte is a word character exactly when its
    ordinal is at least 32 and it is none of the six special bytes; it is
    whitespace exactly when it is a space, a tab, a carriage return or a
    line feed; no byte is both. *)
Theorem X1_byte_classes (c : byte) :
  WC (ord c) = memb c wordchars /\
  WS (ord c) = memb c whitespace /\
  memb c wordchars = (32 <=? ord c) && negb (memb c specials) /\
  memb c whitespace = memb c [x20; x09; x0d; x0a] /\
  memb c wordchars && memb c whitespace = false.
Proof.
  split; [apply WC_ord|]. split; [apply WS_ord|].
  destruct c; vm_compute; repeat split.
Qed.


Lemma whitespace_fit (b : build) (s : bytes) :
  forallb (fun c => memb c whitespace) s = true -> fit b s = true.
Proof.
  intro H. apply forallb_forall. intros c I.
  apply whitespace_fits. revert c I. now apply forallb_forall.
Qed.

(** On any build, a walk of the first revision that returns on [s1]
    goes on after a whitespace byte as a fresh walk. *)
Lemma automaton1_return_app (b : build) (s1 : bytes) :
  forall (m : mode) (c : byte) (s2 : bytes),
  snd (automaton1 b m s1) = Return ->
  memb c whitespace = true ->
  automaton1 b m (s1 ++ c :: s2)
  = yield_then (fst (automaton1 b m s1)) (automaton1 b (Word []) s2).
Proof.
  assert (H0 : forall m c s2,
    snd (automaton1 b m []) = Return -> memb c whitespace = true ->
    automaton1 b m ([] ++ c :: s2)
    = yield_then (fst (automaton1 b m [])) (automaton1 b (Word []) s2)).
  { intros [token|token|token] c s2 R W; try discriminate R.
    cbn [app]. rewrite automaton1_step.
    destruct (whitespace_class c W) as [W1 W2].
    rewrite WC_at_fits, WS_at_fits by now apply whitespace_fits.
    rewrite W1, W2, W. cbn [automaton1 fst].
    destruct token; cbn [V2.truth negb andb pending]; [now rewrite yield_nil_then|].
    reflexivity. }
  induction s1 as [| c1 | c1 c2 s IH1 IH2] using two_step_ind; intros m c s2.
  - apply H0.
  - cbn [app].
    rewrite (automaton1_step b m c1 (c :: s2)), (automaton1_step b m c1 []).
    destruct m; split_tests; intros R W;
      rewrite ?yield_then_snd in R; try discriminate R;
      rewrite ?yield_then_fst_app, <- ?yield_then_assoc;
      first [ apply (H0 _ c s2 R W)
            | f_equal; apply (H0 _ c s2 R W)
            | do 2 f_equal; apply (H0 _ c s2 R W) ].
  - change ((c1 :: c2 :: s) ++ c :: s2) with (c1 :: (c2 :: s) ++ c :: s2).
    rewrite (automaton1_step b m c1 ((c2 :: s) ++ c :: s2)),
            (automaton1_step b m c1 (c2 :: s)).
    cbn [app].
    destruct m; split_tests; intros R W;
      rewrite ?yield_then_snd in R; try discriminate R;
      rewrite ?yield_then_fst_app, <- ?yield_then_assoc;
      first [ apply (IH2 _ c s2 R W)
            | apply (IH1 _ c s2 R W)
            | f_equal; apply (IH2 _ c s2 R W)
            | do 2 f_equal; apply (IH2 _ c s2 R W) ].
Qed.

(** X2.  A text of whitespace only, the empty text among them, yields
    no token and returns, in both revisions (in the first on every
    build). *)
Theorem X2_whitespace_only (b : build) (s : bytes) :
  forallb (fun c => memb c whitespace) s = true ->
  V1.read_token_stream b s = Some ([], Return) /\
  V2.read_token_stream s = Some ([], Return).
Proof.
  intro H.
  rewrite V1_read_token_stream_automaton by now apply whitespace_fit.
  rewrite V2_read_token_stream_automaton.
  now rewrite !automaton_whitespace.
Qed.

Lemma X2_whitespace_only_witness :
  (V1.read_token_stream signed_build [] = Some ([], Return) /\
   V2.read_token_stream [] = Some ([], Return)) /\
  (V1.read_token_stream signed_build [x20; x09; x0d; x0a] = Some ([], Return) /\
   V2.read_token_stream [x20; x09; x0d; x0a] = Some ([], Return)).
Proof.
  split; apply X2_whitespace_only; reflexivity.
Defined.

(** X3.  Whitespace separates: when a text is tokenized without an
    exception, the same text followed by a whitespace byte and a second
    text yields the tokens of the first and then does what the tokenizer
    does on the second alone.  Both revisions, the first on every build
    and every text, whatever the tables give for a byte that does not
    fit the [char]. *)
Theorem X3_whitespace_separates (b : build) (s1 s2 : bytes) (c : byte)
    (toks : list bytes) :
  memb c whitespace = true ->
  (V1.read_token_stream b s1 = Some (toks, Return) ->
   V1.read_token_stream b (s1 ++ c :: s2)
   = option_map (yield_then toks) (V1.read_token_stream b s2)) /\
  (V2.read_token_stream s1 = Some (toks, Return) ->
   V2.read_token_stream (s1 ++ c :: s2)
   = option_map (yield_then toks) (V2.read_token_stream s2)).
Proof.
  intro W.
  rewrite !V1_read_token_stream_automaton1, !V2_read_token_stream_automaton.
  cbn [option_map].
  split; intro H; injection H as H.
  - rewrite automaton1_return_app; [now rewrite H | now rewrite H | exact W].
  - rewrite automaton_return_app; [now rewrite H | now rewrite H | exact W].
Qed.

Lemma X3_whitespace_separates_witness :
  memb x0a whitespace = true /\
  V1.read_token_stream signed_build (b' "* 1 FETCH (UID 7)") = Some
    ([b' "*"; b' "1"; b' "FETCH"; b' "("; b' "UID"; b' "7"; b' ")"], Return) /\
  V1.read_token_stream signed_build (b' "* 1 FETCH (UID 7)" ++ x0a :: b' "a2 [x")
  = option_map
      (yield_then [b' "*"; b' "1"; b' "FETCH"; b' "("; b' "UID"; b' "7"; b' ")"])
      (V1.read_token_stream signed_build (b' "a2 [x")).
Proof.
  split; [reflexivity|]. split; [reflexivity|].
  apply (proj1 (X3_whitespace_separates signed_build
                  (b' "* 1 FETCH (UID 7)") (b' "a2 [x") x0a _ eq_refl)).
  reflexivity.
Defined.

(** X4.  A punctuation byte (a parenthesis, a percent sign, a control
    byte that is no whitespace) ends the atom before it, if any, is a
    token of its own, and the tokenizer goes on after it as on a fresh
    text.  The second revision on every text, the first on a text that
    fits the [char]. *)
Theorem X4_punctuation (b : build) (pre rest : bytes) (c : byte) :
  forallb wordchar pre = true ->
  punctuation c = true ->
  (fit b (pre ++ c :: rest) = true ->
   V1.read_token_stream b (pre ++ c :: rest)
   = option_map (yield_then (pending pre ++ [[c]])) (V1.read_token_stream b rest)) /\
  V2.read_token_stream (pre ++ c :: rest)
  = option_map (yield_then (pending pre ++ [[c]])) (V2.read_token_stream rest).
Proof.
  intros W P. split.
  - intro F. rewrite (V1_read_token_stream_automaton b _ F).
    rewrite V1_read_token_stream_automaton by solve_fit.
    cbn [option_map]. now rewrite automaton_punctuation.
  - rewrite !V2_read_token_stream_automaton.
    cbn [option_map]. now rewrite automaton_punctuation.
Qed.

Lemma X4_punctuation_witness :
  (V1.read_token_stream signed_build (b' "(ab)")
   = option_map (yield_then [b' "("]) (V1.read_token_stream signed_build (b' "ab)")) /\
   V2.read_token_stream (b' "(ab)")
   = option_map (yield_then [b' "("]) (V2.read_token_stream (b' "ab)"))) /\
  (V1.read_token_stream signed_build (b' "ab)")
   = option_map (yield_then [b' "ab"; b' ")"]) (V1.read_token_stream signed_build []) /\
   V2.read_token_stream (b' "ab)")
   = option_map (yield_then [b' "ab"; b' ")"]) (V2.read_token_stream [])).
Proof.
  split; split.
  - apply (X4_punctuation signed_build [] (b' "ab)") x28); reflexivity.
  - apply (X4_punctuation signed_build [] (b' "ab)") x28); reflexivity.
  - apply (X4_punctuation signed_build (b' "ab") [] x29); reflexivity.
  - apply (X4_punctuation signed_build (b' "ab") [] x29); reflexivity.
Defined.

(** ** Texts without quotes or brackets, and the exceptions *)

Lemma eqb_sym (c d : byte) : Byte.eqb c d = Byte.eqb d c.
Proof.
  destruct (Byte.eqb d c) eqn:E.
  - apply eqb_eq in E. subst. apply eqb_refl.
  - apply eqb_neq. apply eqb_neq in E. congruence.
Qed.

Lemma memb_cons_false (d c : byte) (s : bytes) :
  memb d (c :: s) = false -> Byte.eqb c d = false /\ memb d s = false.
Proof.
  cbn [memb existsb]. intro H. apply orb_false_elim in H.
  destruct H as [H1 H2]. rewrite eqb_sym. now split.
Qed.

Lemma wordchar_class (c : byte) :
  memb c wordchars = true -> memb c whitespace = false.
Proof.
  intro H. destruct (memb c whitespace) eqn:W; [|reflexivity].
  destruct (whitespace_class c W). congruence.
Qed.

Lemma concat_pending (token : bytes) : concat (pending token) = token.
Proof. destruct token; [reflexivity|]. cbn. now rewrite app_nil_r. Qed.

Section Plain.

Variable uq : exn.

Lemma automaton_plain (s : bytes) : forall token : bytes,
  memb DOUBLE_QUOTE_CHR s = false -> memb OPEN_SQUARE_CHR s = false ->
  snd (automaton uq (Word token) s) = Return /\
  concat (fst (automaton uq (Word token) s)) = token ++ strip s.
Proof.
  induction s as [|c s IH]; intros token Q B.
  - cbn. now rewrite concat_pending, app_nil_r.
  - apply memb_cons_false in Q, B. destruct Q as [Q1 Q2], B as [B1 B2].
    rewrite automaton_step, B1, Q1. unfold strip. cbn [filter]. fold (strip s).
    destruct (memb c wordchars) eqn:W.
    + rewrite (wordchar_class c W). cbn [negb].
      destruct (IH (token ++ [c]) Q2 B2) as [R C].
      split; [exact R|]. now rewrite C, <- app_assoc.
    + destruct (IH [] Q2 B2) as [R C]. cbn [app] in C.
      destruct (memb c whitespace); cbn [negb];
        rewrite yield_then_snd, yield_then_fst_app, concat_app, C;
        (split; [exact R|]).
      * now rewrite concat_pending.
      * rewrite concat_app, concat_pending. cbn. now rewrite <- app_assoc.
Qed.

Lemma automaton_endings (s : bytes) : forall m : mode,
  ending_of_four uq (snd (automaton uq m s)).
Proof.
  unfold ending_of_four.
  induction s as [| c | c c' s IH1 IH2] using two_step_ind; intro m.
  - destruct m; cbn; auto.
  - rewrite automaton_step.
    destruct m; split_tests; rewrite ?yield_then_snd; cbn; auto.
  - rewrite automaton_step.
    destruct m; split_tests; rewrite ?yield_then_snd; auto.
Qed.

(** Without an opening bracket in the text no walk that starts in a
    word or a quoted string ends for a missing closing bracket. *)
Lemma automaton_no_bracket (s : bytes) : forall m : mode,
  memb OPEN_SQUARE_CHR s = false ->
  (forall token, m <> Bracket token) ->
  snd (automaton uq m s) = Return \/
  snd (automaton uq m s) = Raise UnterminatedQuote \/
  snd (automaton uq m s) = Raise uq.
Proof.
  induction s as [| c | c c' s IH1 IH2] using two_step_ind; intros m B NB.
  - destruct m; cbn; auto. now destruct (NB token).
  - apply memb_cons_false in B. destruct B as [B1 _].
    rewrite automaton_step.
    destruct m as [token|token|token]; [| now destruct (NB token) |];
      rewrite ?B1; split_tests; rewrite ?yield_then_snd; cbn; auto.
  - pose proof B as B'. apply memb_cons_false in B'. destruct B' as [B1 B2].
    pose proof B2 as B3. apply memb_cons_false in B3. destruct B3 as [_ B3].
    rewrite automaton_step.
    destruct m as [token|token|token]; [| now destruct (NB token) |];
      rewrite ?B1; split_tests; rewrite ?yield_then_snd; auto;
      first [apply IH2 | apply IH1]; auto; discriminate.
Qed.

(** Without a double quote in the text no walk that starts in a word or
    in brackets ends for a quote. *)
Lemma automaton_no_quote (s : bytes) : forall m : mode,
  memb DOUBLE_QUOTE_CHR s = false ->
  (forall token, m <> Quote token) ->
  snd (automaton uq m s) = Return \/
  snd (automaton uq m s) = Raise UnterminatedBracket.
Proof.
  induction s as [|c s IH]; intros m Q NQ.
  - destruct m; cbn; auto. now destruct (NQ token).
  - apply memb_cons_false in Q. destruct Q as [Q1 Q2].
    rewrite automaton_step.
    destruct m as [token|token|token]; [| | now destruct (NQ token)];
      rewrite ?Q1; split_tests; rewrite ?yield_then_snd;
      apply IH; auto; discriminate.
Qed.

End Plain.

(** The first revision has a fifth ending, of its own: the exception of
    [bytearray.append]. *)
Lemma automaton1_endings (b : build) (s : bytes) : forall m : mode,
  ending_of_four V1_UnexpectedQuote (snd (automaton1 b m s)) \/
  snd (automaton1 b m s) = Raise ByteRange.
Proof.
  unfold ending_of_four.
  induction s as [| c | c c' s IH1 IH2] using two_step_ind; intro m.
  - destruct m; cbn; auto.
  - rewrite automaton1_step.
    destruct m; split_tests; rewrite ?yield_then_snd; cbn; auto.
  - rewrite automaton1_step.
    destruct m; split_tests; rewrite ?yield_then_snd; auto.
Qed.

(** X5.  A text with no double quote and no opening square bracket is
    tokenized without an exception, and its tokens put end to end are
    the text without its whitespace: nothing but whitespace is lost.
    The second revision on every text, the first, with the same tokens,
    on a text that fits the [char]. *)
Theorem X5_plain_text (b : build) (s : bytes) :
  memb DOUBLE_QUOTE_CHR s = false ->
  memb OPEN_SQUARE_CHR s = false ->
  exists toks,
    V2.read_token_stream s = Some (toks, Return) /\
    concat toks = strip s /\
    (fit b s = true -> V1.read_token_stream b s = Some (toks, Return)).
Proof.
  intros Q B.
  rewrite V2_read_token_stream_automaton.
  destruct (automaton_plain V1_UnexpectedQuote s [] Q B) as [R1 C1].
  destruct (automaton_plain V2_UnexpectedQuote s [] Q B) as [R2 C2].
  destruct (automaton_same V1_UnexpectedQuote V2_UnexpectedQuote s (Word [])) as [F _].
  exists (fst (automaton V2_UnexpectedQuote (Word []) s)).
  split; [|split; [exact C2|]].
  - rewrite <- R2. now destruct (automaton V2_UnexpectedQuote (Word []) s).
  - intro Fit. rewrite V1_read_token_stream_automaton by exact Fit.
    rewrite <- F, <- R1. now destruct (automaton V1_UnexpectedQuote (Word []) s).
Qed.

Lemma X5_plain_text_witness :
  exists toks,
    V2.read_token_stream (b' " a (b c) %d ") = Some (toks, Return) /\
    concat toks = strip (b' " a (b c) %d ") /\
    (fit signed_build (b' " a (b c) %d ") = true ->
     V1.read_token_stream signed_build (b' " a (b c) %d ") = Some (toks, Return)).
Proof. apply (X5_plain_text signed_build); reflexivity. Defined.

(** X9.  The second revision ends in one of four ways: it returns, or
    raises for a missing closing bracket, for a missing closing quote,
    or for a quote inside a word.  The first revision has a fifth
    ending, the [ValueError] of [bytearray.append] for a byte out of
    range, which it does not take on a text that fits the [char].
    Either raises for a bracket only when the text holds an opening
    square bracket, and for a quote only when the text holds a double
    quote (the first on a text that fits). *)
Theorem X9_endings (b : build) (s : bytes) :
  (exists toks e,
     V1.read_token_stream b s = Some (toks, e) /\
     (ending_of_four V1_UnexpectedQuote e \/ e = Raise ByteRange) /\
     (fit b s = true ->
      ending_of_four V1_UnexpectedQuote e /\
      (memb OPEN_SQUARE_CHR s = false -> e <> Raise UnterminatedBracket) /\
      (memb DOUBLE_QUOTE_CHR s = false ->
       e <> Raise UnterminatedQuote /\ e <> Raise V1_UnexpectedQuote))) /\
  (exists toks e,
     V2.read_token_stream s = Some (toks, e) /\
     ending_of_four V2_UnexpectedQuote e /\
     (memb OPEN_SQUARE_CHR s = false -> e <> Raise UnterminatedBracket) /\
     (memb DOUBLE_QUOTE_CHR s = false ->
      e <> Raise UnterminatedQuote /\ e <> Raise V2_UnexpectedQuote)).
Proof.
  assert (Four : forall uq, uq <> UnterminatedBracket -> uq <> UnterminatedQuote ->
    let e := snd (automaton uq (Word []) s) in
    ending_of_four uq e /\
    (memb OPEN_SQUARE_CHR s = false -> e <> Raise UnterminatedBracket) /\
    (memb DOUBLE_QUOTE_CHR s = false ->
     e <> Raise UnterminatedQuote /\ e <> Raise uq)).
  { intros uq N1 N2 e.
    pose proof (automaton_endings uq s (Word [])) as E.
    pose proof (automaton_no_bracket uq s (Word [])) as B.
    pose proof (automaton_no_quote uq s (Word [])) as Q.
    fold e in E, B, Q. split; [exact E|]. split.
    - intros H X. destruct (B H) as [R|[R|R]]; try discriminate;
        rewrite R in X; try discriminate X. injection X as X. contradiction.
    - intros H. destruct (Q H) as [R|R]; try discriminate;
        rewrite R; split; try discriminate.
      intro X. injection X as X. symmetry in X. contradiction. }
  rewrite V1_read_token_stream_automaton1, V2_read_token_stream_automaton.
  split.
  - pose proof (automaton1_endings b s (Word [])) as E.
    pose proof (automaton1_fit b s (Word [])) as A.
    pose proof (Four V1_UnexpectedQuote ltac:(discriminate) ltac:(discriminate)) as F.
    cbv zeta in F.
    destruct (automaton1 b (Word []) s) as [toks e]. cbn [snd] in *.
    exists toks, e. split; [reflexivity|]. split; [exact E|].
    intro Fit. rewrite <- (A Fit) in F. exact F.
  - pose proof (Four V2_UnexpectedQuote ltac:(discriminate) ltac:(discriminate)) as F.
    cbv zeta in F.
    destruct (automaton V2_UnexpectedQuote (Word []) s) as [toks e]. cbn [snd] in *.
    exists toks, e. split; [reflexivity|]. exact F.
Qed.

Lemma X9_endings_witness :
  fit signed_build (quoted (b' "a") ++ b' " b" ++ [DOUBLE_QUOTE_CHR]) = true /\
  memb OPEN_SQUARE_CHR (quoted (b' "a") ++ b' " b" ++ [DOUBLE_QUOTE_CHR]) = false /\
  exists toks e,
    V1.read_token_stream signed_build
      (quoted (b' "a") ++ b' " b" ++ [DOUBLE_QUOTE_CHR])
    = Some (toks, e) /\
    e <> Raise UnterminatedBracket.
Proof.
  split; [reflexivity|]. split; [reflexivity|].
  destruct (proj1 (X9_endings signed_build
                     (quoted (b' "a") ++ b' " b" ++ [DOUBLE_QUOTE_CHR])))
    as [toks [e [E [_ F]]]].
  exists toks, e. split; [exact E|].
  apply (proj1 (proj2 (F eq_refl))). reflexivity.
Defined.

(** ** The kinds of token *)


Section Kinds.

Variable uq : exn.


Lemma automaton_word_token (t rest : bytes) :
  word t = true -> boundary rest = true ->
  automaton uq (Word []) (t ++ rest)
  = yield_then [t] (automaton uq (Word []) rest).
Proof.
  unfold word. intros W B. apply andb_prop in W. destruct W as [T W].
  destruct (word_scan false t) as [[|]|] eqn:S; try discriminate.
  pose proof (automaton_word_scan uq t false false [] rest S) as A.
  cbn [word_mode app] in A. rewrite A.
  rewrite automaton_boundary by exact B. unfold pending. now rewrite T.
Qed.

Lemma pending_kind (token : bytes) :
  word_scan false token = Some false -> Forall token_kind (pending token).
Proof.
  intro S. unfold pending. destruct (V2.truth token) eqn:T; constructor; [|constructor].
  right. right. unfold word. now rewrite T, S.
Qed.

(** One byte of the walk keeps the kinds, given that the walk on what
    follows does. *)
Lemma token_kinds_step (c : byte) (s : bytes) :
  (forall m, mode_kind m -> Forall token_kind (fst (automaton uq m s))) ->
  (forall c' s', s = c' :: s' ->
     forall m, mode_kind m -> Forall token_kind (fst (automaton uq m s'))) ->
  forall m, mode_kind m -> Forall token_kind (fst (automaton uq m (c :: s))).
Proof.
  intros IH IH' m K. rewrite automaton_step.
  assert (N : Forall token_kind (fst (automaton uq (Word []) s))) by now apply IH.
  destruct m as [token|token|token]; cbn [mode_kind] in K.
  - destruct (memb c wordchars) eqn:W.
    { apply IH. cbn [mode_kind]. rewrite word_scan_app, K. cbn [word_scan]. now rewrite W. }
    destruct (Byte.eqb c OPEN_SQUARE_CHR) eqn:O.
    { apply IH. cbn [mode_kind]. rewrite word_scan_app, K. cbn [word_scan]. now rewrite W, O. }
    destruct (memb c whitespace) eqn:S.
    { rewrite yield_then_fst_app. apply Forall_app. split; [now apply pending_kind | exact N]. }
    destruct (Byte.eqb c DOUBLE_QUOTE_CHR) eqn:Q.
    { destruct (V2.truth token); [constructor|].
      apply IH. cbn [mode_kind]. apply eqb_eq in Q. subst c. now exists []. }
    rewrite yield_then_fst_app. repeat (apply Forall_app; split);
      [now apply pending_kind | | exact N].
    constructor; [|constructor]. left. exists c. split; [reflexivity|].
    unfold punctuation. now rewrite W, O, S, Q.
  - destruct (Byte.eqb c CLOSE_SQUARE_CHR) eqn:C; apply IH; cbn [mode_kind];
      rewrite word_scan_app, K; cbn [word_scan]; now rewrite C.
  - destruct K as [body ->].
    destruct (Byte.eqb c BACKSLASH_CHR).
    + destruct s as [|c' s']; [constructor|].
      destruct (is_escaped c').
      * apply (IH' c' s' eq_refl). now exists (body ++ [c']).
      * apply IH. now exists (body ++ [c]).
    + destruct (Byte.eqb c DOUBLE_QUOTE_CHR) eqn:Q.
      * rewrite yield_then_fst_app. constructor; [|exact N].
        right. left. exists body. apply eqb_eq in Q. now subst c.
      * apply IH. now exists (body ++ [c]).
Qed.

Lemma automaton_token_kinds (s : bytes) : forall m : mode,
  mode_kind m -> Forall token_kind (fst (automaton uq m s)).
Proof.
  induction s as [| c | c c' s IH1 IH2] using two_step_ind.
  - intros [token|token|token] K; cbn; try constructor. now apply pending_kind.
  - apply token_kinds_step.
    + intros [token|token|token] K; cbn; try constructor. now apply pending_kind.
    + discriminate.
  - apply token_kinds_step; [exact IH2|].
    intros d s' E. injection E as <- <-. exact IH1.
Qed.

End Kinds.

(** X6.  Every token the tokenizer yields is of one of three kinds: a
    single punctuation byte; a quoted string, that is a body between two
    double quotes; or a word, made of word characters and of groups in
    square brackets that are closed.  In particular no token starts with
    whitespace or holds an open group.  The second revision on every
    text, the first on a text that fits the [char]. *)
Theorem X6_token_kinds (b : build) (s : bytes) :
  (fit b s = true ->
   exists toks e,
     V1.read_token_stream b s = Some (toks, e) /\ Forall token_kind toks) /\
  (exists toks e,
     V2.read_token_stream s = Some (toks, e) /\ Forall token_kind toks).
Proof.
  split; [intro F; rewrite V1_read_token_stream_automaton by exact F
         | rewrite V2_read_token_stream_automaton].
  - pose proof (automaton_token_kinds V1_UnexpectedQuote s (Word []) eq_refl) as K.
    destruct (automaton V1_UnexpectedQuote (Word []) s) as [toks e].
    now exists toks, e.
  - pose proof (automaton_token_kinds V2_UnexpectedQuote s (Word []) eq_refl) as K.
    destruct (automaton V2_UnexpectedQuote (Word []) s) as [toks e].
    now exists toks, e.
Qed.

Lemma X6_token_kinds_witness :
  fit signed_build (b' "a1 [b c]d (e) " ++ quoted (b' "f g")) = true /\
  exists toks e,
    V1.read_token_stream signed_build (b' "a1 [b c]d (e) " ++ quoted (b' "f g"))
    = Some (toks, e) /\
    Forall token_kind toks.
Proof.
  split; [reflexivity|].
  exact (proj1 (X6_token_kinds signed_build
                  (b' "a1 [b c]d (e) " ++ quoted (b' "f g"))) eq_refl).
Defined.

(** X7.  A word before the end of the text or before whitespace is one
    token, whatever its groups in square brackets hold and whatever
    follows a group inside the word; the tokenizer goes on after it as on
    a fresh text.  The second revision on every text, the first on a
    text that fits the [char]. *)
Theorem X7_word_token (b : build) (t rest : bytes) :
  word t = true -> boundary rest = true ->
  (fit b (t ++ rest) = true ->
   V1.read_token_stream b (t ++ rest)
   = option_map (yield_then [t]) (V1.read_token_stream b rest)) /\
  V2.read_token_stream (t ++ rest)
  = option_map (yield_then [t]) (V2.read_token_stream rest).
Proof.
  intros W B. split.
  - intro F. rewrite (V1_read_token_stream_automaton b _ F).
    rewrite V1_read_token_stream_automaton by solve_fit.
    cbn [option_map]. now rewrite automaton_word_token.
  - rewrite !V2_read_token_stream_automaton.
    cbn [option_map]. now rewrite automaton_word_token.
Qed.

Lemma X7_word_token_witness :
  V1.read_token_stream signed_build (b' "BODY[HEADER.FIELDS (TO)]<0.9> x")
  = option_map (yield_then [b' "BODY[HEADER.FIELDS (TO)]<0.9>"])
      (V1.read_token_stream signed_build (b' " x")) /\
  V2.read_token_stream (b' "BODY[HEADER.FIELDS (TO)]<0.9> x")
  = option_map (yield_then [b' "BODY[HEADER.FIELDS (TO)]<0.9>"])
      (V2.read_token_stream (b' " x")).
Proof.
  split.
  - apply (X7_word_token signed_build (b' "BODY[HEADER.FIELDS (TO)]<0.9>") (b' " x"));
      reflexivity.
  - apply (X7_word_token signed_build (b' "BODY[HEADER.FIELDS (TO)]<0.9>") (b' " x"));
      reflexivity.
Defined.

(** ** Reading tokens back *)

Section ReadBack.

Variable uq : exn.

Lemma token_kind_reads_back (t : bytes) :
  token_kind t ->
  (forall body, t = quoted body -> verbatim body = true) ->
  automaton uq (Word []) t = ([t], Return).
Proof.
  intros [[c [-> P]] | [[body ->] | W]] V.
  - pose proof (automaton_punctuation uq [] c [] eq_refl P) as A.
    cbn [app] in A. rewrite A. reflexivity.
  - apply automaton_verbatim. now apply V.
  - rewrite <- (app_nil_r t) at 1. now rewrite automaton_word_token.
Qed.

Lemma automaton_join (sep : byte) (toks : list bytes) :
  memb sep whitespace = true ->
  Forall (fun t => automaton uq (Word []) t = ([t], Return)) toks ->
  automaton uq (Word []) (join sep toks) = (toks, Return).
Proof.
  intros W F. induction F as [|t toks Ht F IH]; [reflexivity|].
  destruct toks as [|t' toks]; [exact Ht|].
  change (join sep (t :: t' :: toks)) with (t ++ sep :: join sep (t' :: toks)).
  rewrite automaton_return_app; [| now rewrite Ht | exact W].
  now rewrite Ht, IH.
Qed.

Lemma escape_unescape (body : bytes) :
  quoted_body (escape body) = true /\ unescape (escape body) = body.
Proof.
  induction body as [|c body [Q U]]; [split; reflexivity|].
  cbn [escape]. destruct (is_escaped c) eqn:E.
  - rewrite quoted_body_cons, unescape_cons, eqb_refl, E. split; [exact Q | now rewrite U].
  - rewrite quoted_body_cons, unescape_cons.
    unfold is_escaped in E. apply orb_false_elim in E. destruct E as [E1 E2].
    rewrite E1, E2. split; [exact Q | now rewrite U].
Qed.

End ReadBack.

Lemma fit_snoc (b : build) (token : bytes) (c : byte) :
  fit b token = true -> fits b c = true -> fit b (token ++ [c]) = true.
Proof. intros T C. rewrite fit_app, T. cbn. now rewrite C. Qed.

Lemma pending_fit (b : build) (token : bytes) :
  fit b token = true -> Forall (fun t => fit b t = true) (pending token).
Proof. intro F. destruct token; repeat constructor. exact F. Qed.

(** The tokens of a text that fits the [char] fit it. *)
Lemma automaton_tokens_fit (b : build) (uq : exn) (s : bytes) : forall m : mode,
  fit b s = true -> fit b (mode_token m) = true ->
  Forall (fun t => fit b t = true) (fst (automaton uq m s)).
Proof.
  induction s as [| c | c c' s IH1 IH2] using two_step_ind; intros m F T.
  - destruct m; cbn; [now apply pending_fit | constructor | constructor].
  - apply fit_cons in F. destruct F as [Fc _].
    rewrite automaton_step.
    destruct m; cbn [mode_token] in T; split_tests; cbn;
      repeat (apply Forall_app; split); repeat constructor;
      try (now apply pending_fit); try (now apply fit_snoc);
      try (apply pending_fit; now apply fit_snoc);
      try (cbn; now rewrite Fc).
  - apply fit_cons in F. destruct F as [Fc F]. pose proof F as F'.
    apply fit_cons in F'. destruct F' as [Fc' Fs].
    rewrite automaton_step.
    destruct m; cbn [mode_token] in T; split_tests; unfold yield_then; cbn [fst];
      repeat (apply Forall_app; split);
      try (apply IH2; [exact F | cbn [mode_token]]);
      try (apply IH1; [exact Fs | cbn [mode_token]]);
      repeat constructor;
      try (now apply pending_fit); try (now apply fit_snoc);
      try (apply pending_fit; now apply fit_snoc);
      try reflexivity; try (cbn; now rewrite Fc).
Qed.

Lemma fit_join (b : build) (sep : byte) (toks : list bytes) :
  fits b sep = true -> Forall (fun t => fit b t = true) toks ->
  fit b (join sep toks) = true.
Proof.
  intros S F. induction F as [|t toks Ht F IH]; [reflexivity|].
  destruct toks as [|t' toks]; [exact Ht|].
  change (join sep (t :: t' :: toks)) with (t ++ sep :: join sep (t' :: toks)).
  now rewrite fit_app, fit_cons_eq, Ht, S, IH.
Qed.

(** X8.  A token that the tokenizer has yielded from some text and that
    is no quoted string (a word, with or without groups in square
    brackets, or a punctuation byte) reads back as itself: tokenizing it
    as a text of its own yields that one token and returns.  The second
    revision on every text, the first on a text that fits the [char]. *)
Theorem X8_tokens_read_back (b : build) (src t : bytes) (toks : list bytes)
    (e : ending) :
  (forall body, t <> quoted body) ->
  In t toks ->
  (fit b src = true ->
   V1.read_token_stream b src = Some (toks, e) ->
   V1.read_token_stream b t = Some ([t], Return)) /\
  (V2.read_token_stream src = Some (toks, e) ->
   V2.read_token_stream t = Some ([t], Return)).
Proof.
  intros NQ I. split.
  - intros F H. rewrite V1_read_token_stream_automaton in H by exact F.
    injection H as H.
    pose proof (automaton_tokens_fit b V1_UnexpectedQuote src (Word []) F eq_refl) as T.
    rewrite H in T. cbn [fst] in T. rewrite Forall_forall in T.
    rewrite V1_read_token_stream_automaton by now apply T.
    f_equal. apply token_kind_reads_back; [|intros body E; now destruct (NQ body)].
    pose proof (automaton_token_kinds V1_UnexpectedQuote src (Word []) eq_refl) as K.
    rewrite H in K. cbn [fst] in K. rewrite Forall_forall in K. now apply K.
  - rewrite !V2_read_token_stream_automaton.
    intro H; injection H as H; f_equal; apply token_kind_reads_back;
      [|intros body E; now destruct (NQ body)].
    pose proof (automaton_token_kinds V2_UnexpectedQuote src (Word []) eq_refl) as K.
    rewrite H in K. cbn [fst] in K. rewrite Forall_forall in K. now apply K.
Qed.

Lemma X8_tokens_read_back_witness :
  V1.read_token_stream signed_build (b' "a (BODY[TEXT (x]y [z")
  = Some ([b' "a"; b' "("; b' "BODY[TEXT (x]y"], Raise UnterminatedBracket) /\
  V1.read_token_stream signed_build (b' "BODY[TEXT (x]y")
  = Some ([b' "BODY[TEXT (x]y"], Return).
Proof.
  split; [reflexivity|].
  apply (proj1 (X8_tokens_read_back signed_build
                  (b' "a (BODY[TEXT (x]y [z") (b' "BODY[TEXT (x]y")
                  [b' "a"; b' "("; b' "BODY[TEXT (x]y"] (Raise UnterminatedBracket)
                  ltac:(discriminate) ltac:(cbn; tauto))); reflexivity.
Defined.

(** X10.  Tokenizing is a round trip on its own tokens: when the quoted
    strings among the tokens yielded from a text have bodies that read
    back as themselves, the tokens joined by a whitespace byte are
    tokenized, without an exception, into exactly those tokens.  The
    second revision on every text, the first on a text that fits the
    [char]. *)
Theorem X10_join_round_trip (b : build) (src : bytes) (sep : byte)
    (toks : list bytes) (e : ending) :
  memb sep whitespace = true ->
  (forall body, In (quoted body) toks -> verbatim body = true) ->
  (fit b src = true ->
   V1.read_token_stream b src = Some (toks, e) ->
   V1.read_token_stream b (join sep toks) = Some (toks, Return)) /\
  (V2.read_token_stream src = Some (toks, e) ->
   V2.read_token_stream (join sep toks) = Some (toks, Return)).
Proof.
  intros W V. split.
  - intros F H. rewrite V1_read_token_stream_automaton in H by exact F.
    injection H as H.
    pose proof (automaton_tokens_fit b V1_UnexpectedQuote src (Word []) F eq_refl) as T.
    rewrite H in T. cbn [fst] in T.
    rewrite V1_read_token_stream_automaton
      by (apply fit_join; [now apply whitespace_fits | exact T]).
    f_equal. apply automaton_join; [exact W|].
    apply Forall_forall. intros t I. apply token_kind_reads_back;
      [|intros body ->; now apply V].
    pose proof (automaton_token_kinds V1_UnexpectedQuote src (Word []) eq_refl) as K.
    rewrite H in K. cbn [fst] in K. rewrite Forall_forall in K. now apply K.
  - rewrite !V2_read_token_stream_automaton.
    intro H; injection H as H; f_equal; apply automaton_join; [exact W|].
    apply Forall_forall; intros t I; apply token_kind_reads_back;
      [|intros body ->; now apply V].
    pose proof (automaton_token_kinds V2_UnexpectedQuote src (Word []) eq_refl) as K.
    rewrite H in K. cbn [fst] in K. rewrite Forall_forall in K. now apply K.
Qed.

Lemma X10_join_round_trip_witness :
  let src := b' "  * LIST (\HasNoChildren)  " ++ quoted (b' "/") ++ b' "   INBOX[x y]" in
  let toks := [b' "*"; b' "LIST"; b' "("; b' "\HasNoChildren"; b' ")";
               quoted (b' "/"); b' "INBOX[x y]"] in
  V1.read_token_stream signed_build src = Some (toks, Return) /\
  join x20 toks = b' "* LIST ( \HasNoChildren ) " ++ quoted (b' "/") ++ b' " INBOX[x y]" /\
  V1.read_token_stream signed_build (join x20 toks) = Some (toks, Return).
Proof.
  cbv zeta. split; [reflexivity|]. split; [reflexivity|].
  refine (proj1 (X10_join_round_trip signed_build
                  (b' "  * LIST (\HasNoChildren)  " ++ quoted (b' "/") ++ b' "   INBOX[x y]")
                  x20
                  [b' "*"; b' "LIST"; b' "("; b' "\HasNoChildren"; b' ")";
                   quoted (b' "/"); b' "INBOX[x y]"]
                  Return eq_refl _) eq_refl _); [|reflexivity].
  intros body I. cbv [In] in I.
  destruct I as [I|[I|[I|[I|[I|[I|[I|[]]]]]]]]; cbv in I; try discriminate I.
  injection I as I.
  destruct body as [|c [|d [|d' body]]]; cbn in I; try discriminate I.
  injection I as <-. reflexivity.
Defined.

(** X11.  Every byte string can be sent as a quoted string: written
    with a backslash before each of its backslashes and double quotes,
    between two double quotes, it is tokenized into the one token that
    holds the string itself between the quotes, whatever follows.  The
    second revision for every string, the first for a string that fits
    the [char], in a text that does. *)
Theorem X11_escape_round_trip (b : build) (body rest : bytes) :
  (fit b (quoted (escape body) ++ rest) = true ->
   V1.read_token_stream b (quoted (escape body) ++ rest)
   = option_map (yield_then [quoted body]) (V1.read_token_stream b rest)) /\
  V2.read_token_stream (quoted (escape body) ++ rest)
  = option_map (yield_then [quoted body]) (V2.read_token_stream rest).
Proof.
  destruct (escape_unescape body) as [Q U]. split.
  - intro F. rewrite (V1_read_token_stream_automaton b _ F).
    rewrite V1_read_token_stream_automaton by solve_fit.
    cbn [option_map]. rewrite automaton_quoted by exact Q. now rewrite U.
  - rewrite !V2_read_token_stream_automaton.
    cbn [option_map]. rewrite automaton_quoted by exact Q. now rewrite U.
Qed.

Lemma X11_escape_round_trip_witness :
  let body := b' "say " ++ quoted (b' "hi") ++ [BACKSLASH_CHR] in
  fit signed_build (quoted (escape body) ++ b' " x") = true /\
  V1.read_token_stream signed_build (quoted (escape body) ++ b' " x")
  = option_map (yield_then [quoted body]) (V1.read_token_stream signed_build (b' " x")).
Proof.
  cbv zeta. split; [reflexivity|].
  apply (proj1 (X11_escape_round_trip signed_build
                  (b' "say " ++ quoted (b' "hi") ++ [BACKSLASH_CHR]) (b' " x"))).
  reflexivity.
Defined.

(** * Further properties of the lexer and the token source *)

Section Flatten.

Variable rts : bytes -> option trace.

Lemma pulls_app (n : nat) : forall (m : nat) (ts : TokenSource),
  pulls rts (n + m) ts
  = match pulls rts n ts with
    | Some (ps, ts') =>
      match pulls rts m ts' with
      | Some (qs, ts'') => Some (ps ++ qs, ts'')
      | None => None
      end
    | None => None
    end.
Proof.
  induction n as [|n IH]; intros m ts; cbn [Nat.add pulls].
  - now destruct (pulls rts m ts) as [[qs ts'']|].
  - destruct (next rts ts) as [[p ts']|]; [|reflexivity].
    rewrite IH. destruct (pulls rts n ts') as [[ps u]|]; [|reflexivity].
    now destruct (pulls rts m u) as [[qs u']|].
Qed.

(** Pulls inside a record give its tokens one by one and leave the
    lexer as it is. *)
Lemma pulls_suspended (toks : list bytes) : forall (k : nat) lexer fin,
  (k <= length toks)%nat ->
  pulls rts k {| lex := lexer; src := Suspended (toks, fin) |}
  = Some (map Token (firstn k toks),
          {| lex := lexer; src := Suspended (skipn k toks, fin) |}).
Proof.
  induction toks as [|tok toks IH]; intros k lexer fin Hk.
  - cbn [length] in Hk. replace k with 0%nat by lia. reflexivity.
  - destruct k as [|k]; [reflexivity|].
    cbn [length] in Hk. cbn [pulls next src lex].
    rewrite IH by lia. reflexivity.
Qed.

Lemma pulls_finished_state (n : nat) : forall lexer,
  pulls rts n {| lex := lexer; src := Finished |}
  = Some (repeat StopIteration n, {| lex := lexer; src := Finished |}).
Proof.
  induction n as [|n IH]; intro lexer; [reflexivity|].
  cbn [pulls next src]. now rewrite IH.
Qed.

Lemma next_at_head (lexer : Lexer) (g : gen_state) :
  at_head g ->
  next rts {| lex := lexer; src := g |}
  = for_source rts (sources lexer) (current_source lexer).
Proof. intros [-> | ->]; reflexivity. Qed.

Lemma pulls_next (n : nat) (ts ts' : TokenSource) :
  next rts ts = next rts ts' -> pulls rts (S n) ts = pulls rts (S n) ts'.
Proof. intro H. cbn [pulls]. now rewrite H. Qed.

(** The pulls over records that are constructed and tokenized without
    an exception give their tokens in order; what comes after is what a
    lexer at the head of the remaining records gives. *)
Lemma pulls_clean (pre : list ResponseRecord) (tokss : list (list bytes)) :
  Forall2 (clean rts) pre tokss ->
  forall cur g rest n,
  at_head g ->
  pulls rts (length (concat tokss) + S n)
    {| lex := {| sources := pre ++ rest; current_source := cur |}; src := g |}
  = match pulls rts (S n)
            {| lex := {| sources := rest; current_source := last_source pre cur |};
               src := Suspended ([], Return) |} with
    | Some (ps, ts) => Some (map Token (concat tokss) ++ ps, ts)
    | None => None
    end.
Proof.
  induction 1 as [|chunk toks pre tokss [source [Ei Er]] F IH];
    intros cur g rest n H.
  - cbn [concat length Nat.add app last_source map].
    rewrite (pulls_next n _
               {| lex := {| sources := rest; current_source := cur |};
                  src := Suspended ([], Return) |}).
    + now destruct (pulls rts (S n) _) as [[ps ts]|].
    + rewrite !next_at_head; [reflexivity | now right | exact H].
  - cbn [concat last_source]. rewrite Ei, length_app, map_app.
    destruct toks as [|tok toks].
    + cbn [length Nat.add map app].
      rewrite <- (IH (Some source) (Suspended ([], Return)) rest n) by now right.
      rewrite Nat.add_succ_r. apply pulls_next.
      rewrite !next_at_head; [| now right | exact H].
      cbn [sources current_source app for_source]. now rewrite Ei, Er.
    + pose proof (IH (Some source) (Suspended ([], Return)) rest n) as IH'.
      match goal with
      | |- _ = match ?r with _ => _ end => set (R := r) in *
      end.
      cbn [length]. rewrite <- Nat.add_assoc. cbn [Nat.add pulls].
      rewrite next_at_head by exact H.
      cbn [sources current_source app for_source]. rewrite Ei, Er.
      rewrite pulls_app, pulls_suspended by lia.
      rewrite firstn_all, skipn_all, IH' by now right.
      destruct R as [[ps ts]|]; [|reflexivity].
      cbn [map app]. now rewrite <- app_assoc.
Qed.

End Flatten.

Lemma last_source_last (pre : list ResponseRecord) :
  forall cur chunk source,
  LiteralHandlingIter_init chunk = inl source ->
  last_source (pre ++ [chunk]) cur = Some source.
Proof.
  induction pre as [|c pre IH]; intros cur chunk source E; cbn [app last_source].
  - now rewrite E.
  - destruct (LiteralHandlingIter_init c); now apply IH.
Qed.

(** X12.  The token source gives the tokens of the records in the order
    of the records, and while it gives the tokens of a record that
    record is the current one: after records that are constructed and
    tokenized without an exception, the pull that gives the token number
    [k] of the next record has given all the tokens before it, and
    [current_literal] is then the literal of that record (none for a
    plain line), whatever tokenizer the lexer calls and whatever records
    follow. *)
Theorem X12_literal_of_token (rts : bytes -> option trace)
    (pre post : list ResponseRecord) (tokss : list (list bytes))
    (chunk : ResponseRecord) (source : LiteralHandlingIter)
    (toks : list bytes) (fin : ending) (k : nat) :
  Forall2 (clean rts) pre tokss ->
  LiteralHandlingIter_init chunk = inl source ->
  rts (src_text source) = Some (toks, fin) ->
  (k < length toks)%nat ->
  observe rts (length (concat tokss) + S k) (pre ++ chunk :: post)
  = Some (map Token (concat tokss ++ firstn (S k) toks), inl (literal source)).
Proof.
  intros F Ei Er Hk. unfold observe, TokenSource_init, Lexer_init.
  rewrite (pulls_clean rts pre tokss F None Unstarted (chunk :: post) k) by now left.
  cbn [pulls]. rewrite next_at_head by now right.
  cbn [sources current_source for_source]. rewrite Ei, Er.
  destruct toks as [|tok toks]; [cbn in Hk; lia|].
  cbn [length] in Hk. rewrite pulls_suspended by lia.
  unfold current_literal. cbn [lex current_source firstn].
  now rewrite map_app.
Qed.

Lemma X12_literal_of_token_witness :
  observe (V1.read_token_stream signed_build) 4
    [WithLiteral (b' "a {3}") (b' "xyz"); Plain (b' "  ");
     WithLiteral (b' "b (c) {2}") (b' "hi"); Plain (b' "d")]
  = Some ([Token (b' "a"); Token (b' "{3}"); Token (b' "b"); Token (b' "(")],
          inl (Some (b' "hi"))).
Proof.
  refine (X12_literal_of_token (V1.read_token_stream signed_build)
            [WithLiteral (b' "a {3}") (b' "xyz"); Plain (b' "  ")] [Plain (b' "d")]
            [[b' "a"; b' "{3}"]; []]
            (WithLiteral (b' "b (c) {2}") (b' "hi"))
            {| src_text := b' "b (c) {2}"; literal := Some (b' "hi") |}
            [b' "b"; b' "("; b' "c"; b' ")"; b' "{2}"] Return 1 _ eq_refl eq_refl _).
  - repeat constructor; eexists; split; reflexivity.
  - cbn. lia.
Defined.

(** X13.  When every record is constructed and tokenized without an
    exception, the pulls give all their tokens and from then on the end
    of the iteration, again and again; [current_literal] keeps giving
    the literal of the last record. *)
Theorem X13_exhaustion (rts : bytes -> option trace)
    (pre : list ResponseRecord) (tokss : list (list bytes))
    (chunk : ResponseRecord) (source : LiteralHandlingIter)
    (toks : list bytes) (n : nat) :
  Forall2 (clean rts) pre tokss ->
  LiteralHandlingIter_init chunk = inl source ->
  rts (src_text source) = Some (toks, Return) ->
  observe rts (length (concat tokss ++ toks) + S n) (pre ++ [chunk])
  = Some (map Token (concat tokss ++ toks) ++ repeat StopIteration (S n),
          inl (literal source)).
Proof.
  intros F Ei Er. unfold observe, TokenSource_init, Lexer_init.
  assert (F' : Forall2 (clean rts) (pre ++ [chunk]) (tokss ++ [toks])).
  { apply Forall2_app; [exact F|]. constructor; [|constructor]. now exists source. }
  pose proof (pulls_clean rts _ _ F' None Unstarted [] n (or_introl eq_refl)) as P.
  rewrite app_nil_r, concat_app in P. cbn [concat] in P. rewrite app_nil_r in P.
  rewrite P. cbn [pulls next src lex sources current_source for_source].
  rewrite pulls_finished_state. unfold current_literal. cbn [lex current_source].
  now rewrite (last_source_last pre None chunk source Ei).
Qed.

Lemma X13_exhaustion_witness :
  observe V2.read_token_stream 7 literal_records
  = Some ([Token (b' "a1"); Token (b' "FETCH"); Token (b' "{5}");
           Token (b' "b2"); Token (b' "OK"); StopIteration; StopIteration],
          inl None).
Proof.
  refine (X13_exhaustion V2.read_token_stream
            [WithLiteral (b' "a1 FETCH {5}") (b' "hello")]
            [[b' "a1"; b' "FETCH"; b' "{5}"]]
            (Plain (b' "b2 OK")) {| src_text := b' "b2 OK"; literal := None |}
            [b' "b2"; b' "OK"] 1 _ eq_refl eq_refl).
  repeat constructor; eexists; split; reflexivity.
Defined.

(** X14.  A record that cannot be constructed ends the iteration where
    it stands: the pulls give the tokens of the records before it, then
    the exception of the construction, then the end of the iteration;
    the records after it are never read, and [current_literal] still
    answers for the last record begun before it (with an
    [AttributeError] when there is none). *)
Theorem X14_malformed_record (rts : bytes -> option trace)
    (pre post : list ResponseRecord) (tokss : list (list bytes))
    (chunk : ResponseRecord) (e : exn) (n : nat) :
  Forall2 (clean rts) pre tokss ->
  LiteralHandlingIter_init chunk = inr e ->
  observe rts (length (concat tokss) + S n) (pre ++ chunk :: post)
  = Some (map Token (concat tokss) ++ Exception e :: repeat StopIteration n,
          literal_query (last_source pre None)).
Proof.
  intros F Ei. unfold observe, TokenSource_init, Lexer_init.
  rewrite (pulls_clean rts pre tokss F None Unstarted (chunk :: post) n) by now left.
  cbn [pulls next src lex sources current_source for_source]. rewrite Ei.
  rewrite pulls_finished_state. reflexivity.
Qed.

Lemma X14_malformed_record_witness :
  observe (V1.read_token_stream signed_build) 5
    [WithLiteral (b' "a {3}") (b' "xyz"); WithLiteral (b' "b {2} ") (b' "hi");
     Plain (b' "c")]
  = Some ([Token (b' "a"); Token (b' "{3}");
           Exception (MalformedLiteralRecord (b' "b {2} "));
           StopIteration; StopIteration],
          inl (Some (b' "xyz"))).
Proof.
  refine (X14_malformed_record (V1.read_token_stream signed_build)
            [WithLiteral (b' "a {3}") (b' "xyz")] [Plain (b' "c")]
            [[b' "a"; b' "{3}"]]
            (WithLiteral (b' "b {2} ") (b' "hi"))
            (MalformedLiteralRecord (b' "b {2} ")) 2 _ eq_refl).
  repeat constructor; eexists; split; reflexivity.
Defined.

(** X15.  An exception of the tokenizer inside a record ends the
    iteration after the tokens yielded before it: the pulls give the
    tokens of the records before, the tokens the failing record yields
    before its exception, the exception, and then the end of the
    iteration; the failing record stays the current one, and the records
    after it are never read. *)
Theorem X15_tokenizer_exception (rts : bytes -> option trace)
    (pre post : list ResponseRecord) (tokss : list (list bytes))
    (chunk : ResponseRecord) (source : LiteralHandlingIter)
    (toks : list bytes) (e : exn) (n : nat) :
  Forall2 (clean rts) pre tokss ->
  LiteralHandlingIter_init chunk = inl source ->
  rts (src_text source) = Some (toks, Raise e) ->
  observe rts (length (concat tokss) + S (length toks + n)) (pre ++ chunk :: post)
  = Some (map Token (concat tokss ++ toks) ++ Exception e :: repeat StopIteration n,
          inl (literal source)).
Proof.
  intros F Ei Er. unfold observe, TokenSource_init, Lexer_init.
  rewrite (pulls_clean rts pre tokss F None Unstarted (chunk :: post)
             (length toks + n)) by now left.
  cbn [pulls]. rewrite next_at_head by now right.
  cbn [sources current_source for_source]. rewrite Ei, Er.
  destruct toks as [|tok toks].
  - cbn [length Nat.add]. rewrite pulls_finished_state.
    unfold current_literal. cbn [lex current_source]. now rewrite app_nil_r.
  - cbn [length Nat.add]. rewrite <- Nat.add_succ_r.
    rewrite pulls_app, pulls_suspended by lia.
    rewrite firstn_all, skipn_all. cbn [pulls next src lex].
    rewrite pulls_finished_state.
    unfold current_literal. cbn [lex current_source].
    rewrite !map_app. cbn [map app]. now rewrite <- !app_assoc.
Qed.

Lemma X15_tokenizer_exception_witness :
  observe (V1.read_token_stream signed_build) 6
    [Plain (b' "a b"); WithLiteral (b' "c [d {1}") (b' "x"); Plain (b' "e")]
  = Some ([Token (b' "a"); Token (b' "b"); Token (b' "c");
           Exception UnterminatedBracket; StopIteration; StopIteration],
          inl (Some (b' "x"))).
Proof.
  refine (X15_tokenizer_exception (V1.read_token_stream signed_build)
            [Plain (b' "a b")] [Plain (b' "e")] [[b' "a"; b' "b"]]
            (WithLiteral (b' "c [d {1}") (b' "x"))
            {| src_text := b' "c [d {1}"; literal := Some (b' "x") |}
            [b' "c"] UnterminatedBracket 2 _ eq_refl eq_refl).
  repeat constructor; eexists; split; reflexivity.
Defined.

(** * Further properties of the loops *)

(** X16.  The outer loop keeps no state but its cursor: from any cursor
    inside the text, and with any fuel above the number of bytes left,
    it does what the tokenizer does on the text from the cursor on.
    Both revisions, the first on every build and every text. *)
Theorem X16_outer_loop_from_cursor (b : build) (src : bytes) (ptr : Z) (fuel : nat) :
  0 <= ptr <= len src ->
  (Z.to_nat (len src - ptr) < fuel)%nat ->
  V1.tokens_from b fuel src ptr
  = V1.read_token_stream b (skipn (Z.to_nat ptr) src) /\
  V2.tokens_from fuel src ptr = V2.read_token_stream (skipn (Z.to_nat ptr) src).
Proof.
  intros Hp Hf.
  rewrite V1_read_token_stream_automaton1, V2_read_token_stream_automaton.
  split; [now apply V1_tokens_from_automaton1 | now apply V2_tokens_from_automaton].
Qed.

Lemma X16_outer_loop_from_cursor_witness :
  V1.tokens_from signed_build 9 (b' "ab (cd) ef") 3
  = V1.read_token_stream signed_build (b' "(cd) ef") /\
  V2.tokens_from 9 (b' "ab (cd) ef") 3 = V2.read_token_stream (b' "(cd) ef").
Proof.
  apply (X16_outer_loop_from_cursor signed_build (b' "ab (cd) ef") 3 9).
  - vm_compute. split; discriminate.
  - vm_compute. lia.
Defined.

(** X17.  A double quote directly after a word raises, also when the
    word holds groups in square brackets: the tokenizer yields nothing
    of it and raises the exception of its revision for a quote inside a
    word.  The second revision on every text, the first on a text that
    fits the [char]. *)
Theorem X17_quote_after_word (b : build) (t rest : bytes) :
  word t = true ->
  (fit b (t ++ DOUBLE_QUOTE_CHR :: rest) = true ->
   V1.read_token_stream b (t ++ DOUBLE_QUOTE_CHR :: rest)
   = Some ([], Raise V1_UnexpectedQuote)) /\
  V2.read_token_stream (t ++ DOUBLE_QUOTE_CHR :: rest)
  = Some ([], Raise V2_UnexpectedQuote).
Proof.
  unfold word. intro W. apply andb_prop in W. destruct W as [T W].
  destruct (word_scan false t) as [[|]|] eqn:S; try discriminate.
  pose proof (automaton_word_scan V1_UnexpectedQuote t false false []
                (DOUBLE_QUOTE_CHR :: rest) S) as A1.
  pose proof (automaton_word_scan V2_UnexpectedQuote t false false []
                (DOUBLE_QUOTE_CHR :: rest) S) as A2.
  cbn [word_mode app] in A1, A2.
  split; [intro F; rewrite V1_read_token_stream_automaton by exact F; rewrite A1
         | rewrite V2_read_token_stream_automaton, A2];
    rewrite automaton_step, T; reflexivity.
Qed.

Lemma X17_quote_after_word_witness :
  V1.read_token_stream signed_build (b' "BODY[TEXT]" ++ quoted (b' "x"))
  = Some ([], Raise V1_UnexpectedQuote) /\
  V2.read_token_stream (b' "BODY[TEXT]" ++ quoted (b' "x"))
  = Some ([], Raise V2_UnexpectedQuote).
Proof.
  split.
  - apply (X17_quote_after_word signed_build
             (b' "BODY[TEXT]") (b' "x" ++ [DOUBLE_QUOTE_CHR])); reflexivity.
  - apply (X17_quote_after_word signed_build
             (b' "BODY[TEXT]") (b' "x" ++ [DOUBLE_QUOTE_CHR])); reflexivity.
Defined.

(** * The two revisions side by side *)

(** X18.  On a text that fits the [char] the two revisions yield the
    same tokens, and one ends with an exception exactly when the other
    does; so do the two token sources, pull by pull, over every sequence
    of records whose texts fit.  Where [char] is unsigned every text
    fits. *)
Theorem X18_revisions_agree (b : build) :
  (forall src_text : bytes,
     fit b src_text = true ->
     exists t1 t2,
       V1.read_token_stream b src_text = Some t1 /\
       V2.read_token_stream src_text = Some t2 /\ same_trace t1 t2) /\
  (forall (text : list ResponseRecord) (n : nat),
     fit_records b text = true ->
     exists ps1 ts1 ps2 ts2,
       pulls (V1.read_token_stream b) n (TokenSource_init text) = Some (ps1, ts1) /\
       pulls V2.read_token_stream n (TokenSource_init text) = Some (ps2, ts2) /\
       Forall2 same_pull ps1 ps2) /\
  (char_signed b = false ->
   (forall src_text : bytes, fit b src_text = true) /\
   (forall text : list ResponseRecord, fit_records b text = true)).
Proof.
  split; [|split].
  - apply read_token_stream_same.
  - intros text n F.
    destruct (pulls_same _ _ (fun s => fit b s = true) (read_token_stream_same b) n
                (TokenSource_init text) (TokenSource_init text))
      as [ps1 [ts1 [ps2 [ts2 [E1 [E2 [F2 _]]]]]]].
    + apply Forall_forall. intros chunk I. cbn in I.
      unfold fit_records in F. rewrite forallb_forall in F. now apply F.
    + split; reflexivity.
    + now exists ps1, ts1, ps2, ts2.
  - intro U. split.
    + intro src_text. now apply fit_unsigned.
    + intro text. apply forallb_forall. intros chunk _. now apply fit_unsigned.
Qed.

Lemma X18_revisions_agree_witness :
  fit_records signed_build literal_records = true /\
  (exists ps1 ts1 ps2 ts2,
     pulls (V1.read_token_stream signed_build) 7 (TokenSource_init literal_records)
     = Some (ps1, ts1) /\
     pulls V2.read_token_stream 7 (TokenSource_init literal_records) = Some (ps2, ts2) /\
     Forall2 same_pull ps1 ps2) /\
  fit unsigned_build (quoted [xc3; xa9]) = true /\
  exists t1 t2,
    V1.read_token_stream unsigned_build (quoted [xc3; xa9]) = Some t1 /\
    V2.read_token_stream (quoted [xc3; xa9]) = Some t2 /\ same_trace t1 t2.
Proof.
  split; [reflexivity|]. split; [|split; [reflexivity|]].
  - exact (proj1 (proj2 (X18_revisions_agree signed_build)) literal_records 7%nat eq_refl).
  - exact (proj1 (X18_revisions_agree unsigned_build) (quoted [xc3; xa9]) eq_refl).
Defined.

(** * The [char] inside a quoted string *)

Lemma unfit_signed (b : build) (c : byte) :
  fits b c = false <-> char_signed b = true /\ 128 <= ord c.
Proof.
  unfold fits. split.
  - intro H. apply orb_false_elim in H. destruct H as [H1 H2].
    apply negb_false_iff in H2. split; [exact H2 | lia].
  - intros [S G]. rewrite S. cbn [negb]. rewrite orb_false_r. lia.
Qed.

(** Inside a quoted string the first revision raises at the first byte
    that does not fit the [char], when no closing quote comes before
    it. *)
Lemma automaton1_unfit_quote (b : build) (c : byte) (rest : bytes) (body : bytes) :
  fits b c = false ->
  forall token : bytes,
  fit b body = true -> has_closing_quote body = false ->
  automaton1 b (Quote token) (body ++ c :: rest) = ([], Raise ByteRange).
Proof.
  intro U. destruct (unfit_class b c U) as [U1 [U2 _]].
  assert (H0 : forall token,
    automaton1 b (Quote token) (c :: rest) = ([], Raise ByteRange)).
  { intro token. rewrite automaton1_step. now rewrite U. }
  assert (E : is_escaped c = false) by (unfold is_escaped; now rewrite U1, U2).
  induction body as [| d | d d' s IH1 IH2] using two_step_ind; intros token F H.
  - apply H0.
  - apply fit_cons in F. destruct F as [Fd _].
    cbn [app]. rewrite automaton1_step, Fd. cbn [negb].
    rewrite has_closing_quote_cons in H.
    destruct (Byte.eqb d BACKSLASH_CHR); [rewrite E; apply H0|].
    destruct (Byte.eqb d DOUBLE_QUOTE_CHR); [discriminate H | apply H0].
  - apply fit_cons in F. destruct F as [Fd F]. pose proof F as F'.
    apply fit_cons in F'. destruct F' as [_ Fs].
    change ((d :: d' :: s) ++ c :: rest) with (d :: d' :: s ++ c :: rest).
    rewrite automaton1_step, Fd. cbn [negb].
    rewrite has_closing_quote_cons in H.
    destruct (Byte.eqb d BACKSLASH_CHR).
    + destruct (is_escaped d'); [now apply IH1 | now apply (IH2 (token ++ [d]))].
    + destruct (Byte.eqb d DOUBLE_QUOTE_CHR); [discriminate H|].
      now apply (IH2 (token ++ [d])).
Qed.

(** X19.  Where [char] is signed, a byte from 128 on inside a quoted
    string makes the first revision raise the [ValueError] of
    [bytearray.append] for a byte out of range: when the bytes between
    the opening quote and that byte fit and hold no closing quote, the
    tokenizer yields nothing and raises, whatever follows. *)
Theorem X19_byte_out_of_range (b : build) (body rest : bytes) (c : byte) :
  char_signed b = true -> 128 <= ord c ->
  fit b body = true -> has_closing_quote body = false ->
  V1.read_token_stream b (DOUBLE_QUOTE_CHR :: body ++ c :: rest)
  = Some ([], Raise ByteRange).
Proof.
  intros S G F H.
  assert (U : fits b c = false) by now apply unfit_signed.
  rewrite V1_read_token_stream_automaton1. f_equal.
  rewrite automaton1_step. cbn [V2.truth negb andb].
  replace (memb DOUBLE_QUOTE_CHR whitespace) with false by reflexivity.
  rewrite WC_at_fits, WS_at_fits by reflexivity.
  replace (memb DOUBLE_QUOTE_CHR wordchars) with false by reflexivity.
  replace (memb DOUBLE_QUOTE_CHR whitespace) with false by reflexivity.
  cbn. now apply automaton1_unfit_quote.
Qed.

Lemma X19_byte_out_of_range_witness :
  V1.read_token_stream signed_build
    (DOUBLE_QUOTE_CHR :: b' "caf" ++ xc3 :: [xa9; DOUBLE_QUOTE_CHR] ++ b' " x")
  = Some ([], Raise ByteRange) /\
  V2.read_token_stream
    (DOUBLE_QUOTE_CHR :: b' "caf" ++ xc3 :: [xa9; DOUBLE_QUOTE_CHR] ++ b' " x")
  = Some ([quoted (b' "caf" ++ [xc3; xa9]); b' "x"], Return).
Proof.
  split; [|reflexivity].
  apply (X19_byte_out_of_range signed_build (b' "caf")
           ([xa9; DOUBLE_QUOTE_CHR] ++ b' " x") xc3);
    [reflexivity | vm_compute; discriminate | reflexivity | reflexivity].
Defined.
